(** * Chess lobby server, stream decoder and search opponent

    A shallow embedding of [server.py] (session registry, matchmaking,
    move handling, timeout watchdog), of the incremental JSON framing loop of
    [client_updated_fixed.py] ([ChessClient.receive_data]) and of
    [chess_ai.py] ([ChessAI]).

    The python-chess library is the external rules engine: it is taken as an
    interface ([RulesEngine]).  Socket objects are identified by a number,
    [conn.send] is recorded in a log, and the readings of [time.time()] and
    the identifiers drawn from [uuid.uuid4()] are inputs of the operations. *)

From stdpp Require Import gmap strings list.
From Stdlib Require Import ZArith Ascii String.

Set Warnings "-clear-no-such-hyp".

Open Scope Z_scope.
Open Scope string_scope.
Open Scope list_scope.

(** ** The rules engine (python-chess) as an interface *)

(** [chess.WHITE] is [True] and [chess.BLACK] is [False]. *)
Abbreviation Color := bool (only parsing).
Abbreviation WHITE := true (only parsing).
Abbreviation BLACK := false (only parsing).

(** [chess.PAWN .. chess.KING]. *)
Inductive PieceType := PAWN | KNIGHT | BISHOP | ROOK | QUEEN | KING.

Class RulesEngine := {
  Board : Type;
  Move : Type;
  Move_eq_dec :: EqDecision Move;
  (** [chess.Board()] *)
  initial_board : Board;
  (** [board.turn] *)
  board_turn : Board → Color;
  (** [list(board.legal_moves)] *)
  legal_moves : Board → list Move;
  (** [board.push(move)]; [board.pop()] restores the board pushed on *)
  push : Board → Move → Board;
  (** [board.fen()] *)
  fen : Board → string;
  is_checkmate : Board → bool;
  is_stalemate : Board → bool;
  is_insufficient_material : Board → bool;
  is_game_over : Board → bool;
  is_check : Board → bool;
  is_capture : Board → Move → bool;
  (** [board.piece_at(square)], squares numbered 0..63 *)
  piece_at : Board → nat → option (PieceType * Color);
  (** the assignment [board.turn = color] *)
  set_turn : Board → Color → Board;
  (** [chess.Move.from_uci(text)]; [None] when it raises *)
  from_uci : string → option Move;
  (** the text of the exception [from_uci] raises on that input *)
  uci_error : string → string;
}.

(** [board.push] hands the move to the other side. *)
Definition push_flips_turn `{RulesEngine} : Prop :=
  ∀ b m, board_turn (push b m) = negb (board_turn b).

(** ** Python values *)

(** A socket object, compared by identity. *)
Abbreviation Conn := nat (only parsing).
(** The address pair [(ip, port)] returned by [accept]. *)
Abbreviation Addr := (string * Z)%type (only parsing).

(** [if x:] on a value that is [None] or a socket. *)
Definition truthy {A} (o : option A) : bool :=
  match o with Some _ => true | None => false end.

(** [x is not None] *)
Definition is_not_None {A} (o : option A) : bool :=
  match o with Some _ => true | None => false end.

(** [if s:] on a value that is [None] or a string: the empty string is false. *)
Definition str_truthy (o : option string) : bool :=
  match o with Some s => negb (bool_decide (s = "")) | None => false end.

(** [str(x)] of a value that is [None] or a string, as an f-string prints it. *)
Definition py_str (o : option string) : string :=
  match o with Some s => s | None => "None" end.

(** [repr] of a list of strings: ['a', 'b']. *)
Fixpoint py_repr_items (l : list string) : string :=
  match l with
  | [] => ""
  | [s] => "'" +:+ s +:+ "'"
  | s :: rest => "'" +:+ s +:+ "', " +:+ py_repr_items rest
  end.

Definition py_repr_list (l : list string) : string :=
  "[" +:+ py_repr_items l +:+ "]".

Definition color_name (c : Color) : string :=
  if c then "White" else "Black".

(** [lst.remove(x)]: drops the first occurrence ([None] stands for the
    [ValueError] raised when there is none). *)
Fixpoint list_remove_first {A} `{EqDecision A} (x : A) (l : list A) : option (list A) :=
  match l with
  | [] => None
  | y :: rest =>
      if decide (x = y) then Some rest
      else option_map (cons y) (list_remove_first x rest)
  end.

(** *** Insertion-ordered dictionaries

    [waiting_games] is iterated with [.items()], so its order is kept. *)
Module Dict.

Definition t (V : Type) := list (string * V).

Fixpoint get {V} (k : string) (d : t V) : option V :=
  match d with
  | [] => None
  | (k', v) :: rest => if decide (k = k') then Some v else get k rest
  end.

(** [d[k] = v]: an existing key keeps its place. *)
Fixpoint set {V} (k : string) (v : V) (d : t V) : t V :=
  match d with
  | [] => [(k, v)]
  | (k', v') :: rest =>
      if decide (k = k') then (k, v) :: rest else (k', v') :: set k v rest
  end.

(** [del d[k]] for a key that is present. *)
Fixpoint del {V} (k : string) (d : t V) : t V :=
  match d with
  | [] => []
  | (k', v') :: rest =>
      if decide (k = k') then rest else (k', v') :: del k rest
  end.

Definition mem {V} (k : string) (d : t V) : bool :=
  match get k d with Some _ => true | None => false end.

(** A dictionary holds a key once. *)
Definition wf {V} (d : t V) : Prop := NoDup (map fst d).

End Dict.

(** ** Messages *)

(** Server to client messages ([json.dumps] of these dictionaries). *)
Inductive Msg :=
| MInfo (msg : string)
| MError (msg : string)
| MTurnOnly (turn : string)
| MTurn (turn status : string) (time_limit : Z)
| MBoard (board : string)
| MMove (move board : string)
| MTimeoutSync (timeout_player board next_turn : string)
| MGameOver (result reason : string)
| MChat (msg : string)
| MLobbyUpdate (players : list string) (available_games : list (string * string * bool)).

(** A field of a received JSON object that may be missing or [null]. *)
Inductive Field := Absent | Null | Str (s : string).

(** [msg.get(key)] *)
Definition field_get (f : Field) : option string :=
  match f with Str s => Some s | _ => None end.

(** [msg.get(key, default)] *)
Definition field_get_default (f : Field) (default : string) : option string :=
  match f with Absent => Some default | Null => None | Str s => Some s end.

(** The fields of a client message that the server reads. *)
Record ClientMsg := {
  m_type : Field;
  m_role : Field;
  m_game_id : Field;
  m_password : Field;
  m_move : Field;
  m_msg : Field;
}.

(** What [conn.recv(2048).decode()] followed by [json.loads] gives: the peer
    closed the stream, the text is no JSON object, or a message. *)
Inductive Received :=
| Eof
| Undecodable
| Decoded (m : ClientMsg).

(** [assigned_role] of [handle_client]. *)
Inductive Role := NoRole | Player | Spectator.

Global Instance Role_eq_dec : EqDecision Role.
Proof. solve_decision. Defined.

Definition MOVE_TIMEOUT_SECONDS : Z := 60.

(** ** The server: data model *)

Section Server.
Context `{RE : RulesEngine}.

(** The attributes of a [GameSession] object.  [black_addr] is set by
    [join_game] only: [None] is the object without that attribute. *)
Record GameSession := {
  board : Board;
  white_conn : option Conn;
  black_conn : option Conn;
  players : gmap bool Conn;
  turn : Color;
  spectators : list Conn;
  game_id : string;
  last_move_time : Z;
  creator_conn : option Conn;
  creator_address : option Addr;
  password : option string;
  is_private : bool;
  black_addr : option Addr;
}.

(** The module-level registries, the [GameSession] objects they refer to
    (a reference is an index of [heap]) and the log of [send] calls. *)
Record Globals := {
  lobby : list (Conn * Addr);
  games : gmap Conn nat;
  waiting_games : Dict.t nat;
  spectators_of : gmap Conn nat;
  heap : list GameSession;
  sent : list (Conn * Msg);
}.

Definition initial_globals : Globals :=
  {| lobby := []; games := ∅; waiting_games := []; spectators_of := ∅;
     heap := []; sent := [] |}.

Definition set_lobby (l : list (Conn * Addr)) (st : Globals) : Globals :=
  {| lobby := l; games := games st; waiting_games := waiting_games st;
     spectators_of := spectators_of st; heap := heap st; sent := sent st |}.

Definition set_games (g : gmap Conn nat) (st : Globals) : Globals :=
  {| lobby := lobby st; games := g; waiting_games := waiting_games st;
     spectators_of := spectators_of st; heap := heap st; sent := sent st |}.

Definition set_waiting_games (w : Dict.t nat) (st : Globals) : Globals :=
  {| lobby := lobby st; games := games st; waiting_games := w;
     spectators_of := spectators_of st; heap := heap st; sent := sent st |}.

Definition set_spectators_of (s : gmap Conn nat) (st : Globals) : Globals :=
  {| lobby := lobby st; games := games st; waiting_games := waiting_games st;
     spectators_of := s; heap := heap st; sent := sent st |}.

Definition set_heap (h : list GameSession) (st : Globals) : Globals :=
  {| lobby := lobby st; games := games st; waiting_games := waiting_games st;
     spectators_of := spectators_of st; heap := h; sent := sent st |}.

(** [conn.send(json.dumps(msg).encode())] *)
Definition send (c : Conn) (m : Msg) (st : Globals) : Globals :=
  {| lobby := lobby st; games := games st; waiting_games := waiting_games st;
     spectators_of := spectators_of st; heap := heap st;
     sent := sent st ++ [(c, m)] |}.

Definition send_all (cs : list Conn) (m : Msg) (st : Globals) : Globals :=
  foldl (λ s c, send c m s) st cs.

(** A mutation of the session object behind a reference. *)
Definition update_game (r : nat) (f : GameSession → GameSession) (st : Globals) : Globals :=
  set_heap (alter f r (heap st)) st.

(** [lobby.append((conn, addr))] *)
Definition lobby_append (c : Conn) (a : Addr) (st : Globals) : Globals :=
  set_lobby (lobby st ++ [(c, a)]) st.

(** [lobby.remove((conn, addr))], guarded by a membership test in the source. *)
Definition lobby_remove (c : Conn) (a : Addr) (st : Globals) : Globals :=
  match list_remove_first (c, a) (lobby st) with
  | Some l => set_lobby l st
  | None => st
  end.

Definition in_lobby (c : Conn) (a : Addr) (st : Globals) : bool :=
  bool_decide ((c, a) ∈ lobby st).

(** [broadcast_lobby()] *)
Definition lobby_state (st : Globals) : Msg :=
  MLobbyUpdate
    (map (λ ca, fst (snd ca)) (lobby st))
    (omap (λ kv, g ← heap st !! snd kv;
                 Some (fst kv,
                       from_option fst "" (creator_address g),
                       is_private g))
          (waiting_games st)).

Definition broadcast_lobby (st : Globals) : Globals :=
  send_all (map fst (lobby st)) (lobby_state st) st.

(** *** [GameSession] methods *)

(** [GameSession.__init__], called by [create_game] only; [gid] is the
    identifier cut from [uuid.uuid4()] and [now] the reading of [time.time()]. *)
Definition GameSession_init (white creator : Conn) (creator_addr : Addr)
    (pw : option string) (gid : string) (now : Z) : GameSession :=
  {| board := initial_board;
     white_conn := Some white;
     black_conn := None;
     players := {[ WHITE := white ]};
     turn := WHITE;
     spectators := [];
     game_id := gid;
     last_move_time := now;
     creator_conn := Some creator;
     creator_address := Some creator_addr;
     password := pw;
     is_private := is_not_None pw;
     black_addr := None |}.

(** [GameSession.opponent] *)
Definition opponent (g : GameSession) (c : Conn) : option Conn :=
  if decide (Some c = white_conn g) then black_conn g else white_conn g.

(** The sockets [GameSession.broadcast] writes to, in order.  A seat that is
    [None] raises inside the [try] and is skipped. *)
Definition recipients (g : GameSession) : list Conn :=
  option_list (white_conn g) ++ option_list (black_conn g) ++ spectators g.

(** [GameSession.broadcast] *)
Definition broadcast (g : GameSession) (m : Msg) (st : Globals) : Globals :=
  send_all (recipients g) m st.

Definition set_turn_time (t : Color) (now : Z) (g : GameSession) : GameSession :=
  {| board := board g; white_conn := white_conn g; black_conn := black_conn g;
     players := players g; turn := t; spectators := spectators g;
     game_id := game_id g; last_move_time := now;
     creator_conn := creator_conn g; creator_address := creator_address g;
     password := password g; is_private := is_private g;
     black_addr := black_addr g |}.

Definition set_last_move_time (now : Z) (g : GameSession) : GameSession :=
  set_turn_time (turn g) now g.

Definition set_board (b : Board) (g : GameSession) : GameSession :=
  {| board := b; white_conn := white_conn g; black_conn := black_conn g;
     players := players g; turn := turn g; spectators := spectators g;
     game_id := game_id g; last_move_time := last_move_time g;
     creator_conn := creator_conn g; creator_address := creator_address g;
     password := password g; is_private := is_private g;
     black_addr := black_addr g |}.

Definition seat_black (c : Conn) (a : Addr) (g : GameSession) : GameSession :=
  {| board := board g; white_conn := white_conn g; black_conn := Some c;
     players := <[ BLACK := c ]> (players g); turn := turn g;
     spectators := spectators g;
     game_id := game_id g; last_move_time := last_move_time g;
     creator_conn := creator_conn g; creator_address := creator_address g;
     password := password g; is_private := is_private g;
     black_addr := Some a |}.

Definition append_spectator (c : Conn) (g : GameSession) : GameSession :=
  {| board := board g; white_conn := white_conn g; black_conn := black_conn g;
     players := players g; turn := turn g; spectators := spectators g ++ [c];
     game_id := game_id g; last_move_time := last_move_time g;
     creator_conn := creator_conn g; creator_address := creator_address g;
     password := password g; is_private := is_private g;
     black_addr := black_addr g |}.

(** [GameSession.add_spectator] *)
Definition add_spectator (r : nat) (c : Conn) (st : Globals) : Globals :=
  match heap st !! r with
  | None => st
  | Some g =>
      let st := update_game r (append_spectator c) st in
      let st := send c (MInfo ("You are now spectating Game #" +:+ game_id g)) st in
      let st := send c (MBoard (fen (board g))) st in
      send c (MTurnOnly (color_name (turn g))) st
  end.

(** [GameSession.next_turn]: the new state and the returned [game_status]
    ([true] is "ended"). *)
Definition next_turn (r : nat) (now : Z) (st : Globals) : Globals * bool :=
  match heap st !! r with
  | None => (st, false)
  | Some g0 =>
      let g := set_turn_time (negb (turn g0)) now g0 in
      let st := update_game r (λ _, g) st in
      let '(st, ended) :=
        if is_checkmate (board g) then
          (broadcast g (MInfo ("Checkmate! " +:+
               (if turn g then "Black" else "White") +:+ " wins!")) st, true)
        else if is_stalemate (board g) then
          (broadcast g (MInfo "Stalemate! Game ends in a draw.") st, true)
        else if is_insufficient_material (board g) then
          (broadcast g (MInfo "Draw due to insufficient material.") st, true)
        else (st, false) in
      let st := broadcast g (MTurn (color_name (turn g))
                               (if ended then "ended" else "active")
                               MOVE_TIMEOUT_SECONDS) st in
      let st := broadcast g (MBoard (fen (board g))) st in
      (st, ended)
  end.

(** ** The server: [handle_client] *)

(** The values the environment supplies while one message is handled. *)
Record Env := {
  now : Z;           (* time.time() *)
  fresh_id : string; (* str(uuid.uuid4())[:8] *)
}.

(** [set(games.values())]: the distinct session objects, in some order. *)
Definition active_refs (st : Globals) : list nat :=
  elements (map_img (games st) : gset nat).

Definition find_game_by_id (gid : option string) (st : Globals) : option nat :=
  List.find (λ r, match heap st !! r with
                  | Some g => bool_decide (Some (game_id g) = gid)
                  | None => false
                  end) (active_refs st).

(** The first message of a connection.  Returns the state, [assigned_role]
    and whether the handler enters its main loop. *)
Definition first_message (c : Conn) (addr : Addr) (rcv : Received)
    (st : Globals) : Globals * Role * bool :=
  match rcv with
  | Eof | Undecodable => (st, NoRole, false)
  | Decoded m =>
      if decide (field_get (m_type m) = Some "join") then
        let role := field_get_default (m_role m) "player" in
        if decide (role = Some "player") then
          let st := lobby_append c addr st in
          let st := send c (MInfo "Joined lobby. Create or join a game.") st in
          (broadcast_lobby st, Player, true)
        else if decide (role = Some "spectator") then
          let gid := field_get (m_game_id m) in
          match find_game_by_id gid st with
          | Some r =>
              let st := add_spectator r c st in
              (set_spectators_of (<[c := r]> (spectators_of st)) st, Spectator, true)
          | None =>
              let ids := omap (λ r, game_id <$> heap st !! r) (active_refs st) in
              (send c (MInfo ("Game #" +:+ py_str gid +:+
                              " not found. Active games: " +:+ py_repr_list ids)) st,
               Spectator, true)
          end
        else (st, NoRole, true)
      else
        (send c (MError "First message must be a join request") st, NoRole, false)
  end.

(** The [create_game] branch. *)
Definition create_game (c : Conn) (addr : Addr) (env : Env) (m : ClientMsg)
    (st : Globals) : Globals :=
  let pw := field_get (m_password m) in
  let game := GameSession_init c c addr pw (fresh_id env) (now env) in
  let r := List.length (heap st) in
  let st := set_heap (heap st ++ [game]) st in
  let st := set_waiting_games (Dict.set (game_id game) r (waiting_games st)) st in
  let st := lobby_remove c addr st in
  let st := set_games (<[c := r]> (games st)) st in
  let st := send c (MInfo ("Game #" +:+ game_id game +:+
                           (if str_truthy pw then " (Private game)" else "") +:+
                           " created. You are White. Waiting for an opponent...")) st in
  broadcast_lobby st.

(** The [join_game] branch.  ([white_conn] is never [None] in a session
    made by [create_game]; the source would raise on it.) *)
Definition join_game (c : Conn) (addr : Addr) (env : Env) (m : ClientMsg)
    (st : Globals) : Globals :=
  let gid := field_get (m_game_id m) in
  let not_found :=
    send c (MError ("Game #" +:+ py_str gid +:+ " not found or already full.")) st in
  match gid with
  | None => not_found
  | Some k =>
  match Dict.get k (waiting_games st) ≫= (λ r, pair r <$> heap st !! r) with
  | None => not_found
  | Some (r, game) =>
      if is_private game &&
         negb (bool_decide (field_get_default (m_password m) "" = password game))
      then send c (MError "Incorrect password for private game.") st
      else
        let st := update_game r (seat_black c addr) st in
        let st := set_games (<[c := r]> (games st)) st in
        let st := set_waiting_games (Dict.del k (waiting_games st)) st in
        let st := lobby_remove c addr st in
        let game := seat_black c addr game in
        let st := match white_conn game with
                  | Some w => send w (MInfo ("Game #" +:+ game_id game +:+
                                             " started. You are White.")) st
                  | None => st
                  end in
        let st := send c (MInfo ("Game #" +:+ game_id game +:+
                                 " started. You are Black.")) st in
        let st := broadcast game (MTurnOnly "White") st in
        let st := broadcast game (MBoard (fen (board game))) st in
        let st := update_game r (set_last_move_time (now env)) st in
        broadcast_lobby st
  end
  end.

(** [del games[conn]] guarded by [conn in games], for a seat that may be [None]. *)
Definition del_game_of (o : option Conn) (st : Globals) : Globals :=
  match o with
  | Some c => set_games (delete c (games st)) st
  | None => st
  end.

(** The clean-up after [next_turn] returned "ended". *)
Definition ended_cleanup (game : GameSession) (st : Globals) : Globals :=
  let st := del_game_of (white_conn game) st in
  let st := del_game_of (black_conn game) st in
  let back := MInfo "Game ended. You have been returned to the lobby." in
  let st := match white_conn game, creator_address game with
            | Some w, Some a => send w back (lobby_append w a st)
            | _, _ => st
            end in
  let st := match black_conn game, black_addr game with
            | Some b, Some a => send b back (lobby_append b a st)
            | _, _ => st
            end in
  broadcast_lobby st.

(** The [move] branch for a player whose [games] entry is [r]. *)
Definition handle_move (c : Conn) (env : Env) (m : ClientMsg) (r : nat)
    (st : Globals) : Globals :=
  match heap st !! r with
  | None => st
  | Some game =>
      let player_color : Color := bool_decide (Some c = white_conn game) in
      if negb (Bool.eqb (turn game) player_color) then
        send c (MError "Not your turn") st
      else
        match m_move m with
        | Absent => send c (MError "Invalid move format: 'move'") st
        | Null => send c (MError "Invalid move format: object of type 'NoneType' has no len()") st
        | Str text =>
            match from_uci text with
            | None => send c (MError ("Invalid move format: " +:+ uci_error text)) st
            | Some move =>
                if bool_decide (move ∈ legal_moves (board game)) then
                  let game := set_board (push (board game) move) game in
                  let st := update_game r (λ _, game) st in
                  let st := broadcast game (MMove text (fen (board game))) st in
                  let '(st, ended) := next_turn r (now env) st in
                  if ended then ended_cleanup game st else st
                else send c (MError "Illegal move") st
            end
        end
  end.

(** The address under which the opponent goes back to the lobby. *)
Definition opponent_address (game : GameSession) (other : option Conn) : option Addr :=
  if decide (other = white_conn game) then creator_address game
  else if truthy other then black_addr game
  else None.

(** The [quit_game] branch. *)
Definition quit_game (c : Conn) (addr : Addr) (r : nat) (st : Globals) : Globals :=
  match heap st !! r with
  | None => st
  | Some game =>
      let player_color := if decide (Some c = white_conn game) then "White" else "Black" in
      let over := MGameOver (player_color +:+ " player has quit the game.") "quit" in
      let other := opponent game c in
      let st := send_all (option_list other) over st in
      let st := send_all (spectators game) over st in
      let other_addr := opponent_address game other in
      let st := set_games (delete c (games st)) st in
      let st := del_game_of other st in
      let st := lobby_append c addr st in
      let st := match other, other_addr with
                | Some o, Some a =>
                    send o (MInfo "Your opponent has quit the game. You have been returned to the lobby.")
                         (lobby_append o a st)
                | _, _ => st
                end in
      let st := send c (MInfo "You have quit the game. Returning to lobby.") st in
      broadcast_lobby st
  end.

(** One round of the main loop of [handle_client]: the new state, and
    whether the loop goes on ([false]: it was left by [break] or by an
    exception, and the [finally] block runs). *)
Definition handle_message (c : Conn) (addr : Addr) (role : Role) (env : Env)
    (rcv : Received) (st : Globals) : Globals * bool :=
  match rcv with
  | Eof | Undecodable => (st, false)
  | Decoded m =>
      let ty := field_get (m_type m) in
      let is_player := bool_decide (role = Player) in
      if bool_decide (ty = Some "create_game") && is_player && in_lobby c addr st then
        (create_game c addr env m st, true)
      else if bool_decide (ty = Some "join_game") && is_player && in_lobby c addr st then
        (join_game c addr env m st, true)
      else if bool_decide (ty = Some "lobby_request") && is_player then
        (broadcast_lobby st, true)
      else
        match is_player, games st !! c with
        | true, Some r =>
            match m_type m with
            | Absent => (st, false)
            | _ =>
                if bool_decide (ty = Some "move") then (handle_move c env m r st, true)
                else if bool_decide (ty = Some "chat") then
                  match m_msg m, heap st !! r with
                  | Absent, _ => (st, false)
                  | f, Some game =>
                      let sender := if decide (Some c = white_conn game)
                                    then "White" else "Black" in
                      (broadcast game (MChat (sender +:+ ": " +:+ py_str (field_get f))) st,
                       true)
                  | _, None => (st, true)
                  end
                else if bool_decide (ty = Some "quit_game") then (quit_game c addr r st, true)
                else (st, true)
            end
        | _, _ =>
            if bool_decide (role = Spectator) then
              match spectators_of st !! c ≫= (λ r, heap st !! r) with
              | None => (st, true)
              | Some game =>
                  match m_type m with
                  | Absent => (st, false)
                  | _ =>
                      if bool_decide (ty = Some "chat") then
                        match m_msg m with
                        | Absent => (st, false)
                        | f => (broadcast game
                                  (MChat ("Spectator: " +:+ py_str (field_get f))) st, true)
                        end
                      else (st, true)
                  end
              end
            else (st, true)
        end
  end.

(** The first waiting game created by [c], as the loop over
    [waiting_games.items()] finds it. *)
Definition game_to_remove (c : Conn) (st : Globals) : option string :=
  fst <$> List.find (λ kv, match heap st !! snd kv with
                           | Some game => bool_decide (creator_conn game = Some c)
                           | None => false
                           end) (waiting_games st).

(** The loop over [game.spectators] of the disconnection path. *)
Definition drop_spectators (specs : list Conn) (st : Globals) : Globals :=
  foldl (λ st spec,
           let st := send spec (MInfo "Game ended due to player disconnection.") st in
           set_spectators_of (delete spec (spectators_of st)) st)
        st specs.

(** The [finally] block of [handle_client], up to [conn.close()]. *)
Definition disconnect (c : Conn) (addr : Addr) (role : Role) (st : Globals) : Globals :=
  match role with
  | Player =>
      let st := if in_lobby c addr st then broadcast_lobby (lobby_remove c addr st)
                else st in
      let st := match game_to_remove c st with
                | Some gid =>
                    if str_truthy (Some gid)
                    then broadcast_lobby
                           (set_waiting_games (Dict.del gid (waiting_games st)) st)
                    else st
                | None => st
                end in
      match games st !! c ≫= (λ r, heap st !! r) with
      | None => st
      | Some game =>
          let other := opponent game c in
          let other_addr := opponent_address game other in
          let st := send_all (option_list other)
                      (MInfo "Opponent disconnected. Game ended.") st in
          let st := send_all (option_list other)
                      (MGameOver "Opponent disconnected." "disconnection") st in
          let st := set_games (delete c (games st)) st in
          let st := del_game_of other st in
          let st := match other, other_addr with
                    | Some o, Some a => lobby_append o a st
                    | _, _ => st
                    end in
          let st := drop_spectators (spectators game) st in
          broadcast_lobby st
      end
  | Spectator => set_spectators_of (delete c (spectators_of st)) st
  | NoRole => st
  end.

(** ** The server: [check_move_timers] *)

(** The body of the loop over the active games for one game.
    [current_time] is read once per scan, [now] when the timer is reset. *)
Definition check_game (current_time now : Z) (r : nat) (st : Globals) : Globals :=
  match heap st !! r with
  | None => st
  | Some game =>
      if bool_decide (current_time - last_move_time game > MOVE_TIMEOUT_SECONDS) then
        match players game !! turn game with
        | None => st
        | Some timed_out_player =>
            let opponent_color := negb (turn game) in
            let player_color := color_name (turn game) in
            let st := broadcast game
                        (MInfo (player_color +:+ " took too long. Turn passes to opponent.")) st in
            let game := set_turn_time opponent_color now game in
            let st := update_game r (λ _, game) st in
            let st := broadcast game
                        (MTimeoutSync player_color (fen (board game))
                           (color_name opponent_color)) st in
            let st := broadcast game (MBoard (fen (board game))) st in
            broadcast game (MTurn (color_name opponent_color) "active"
                              MOVE_TIMEOUT_SECONDS) st
        end
      else st
  end.

(** One scan of the watchdog, after its [time.sleep(1)]. *)
Definition check_move_timers (current_time now : Z) (st : Globals) : Globals :=
  foldl (λ st r, check_game current_time now r st) st (active_refs st).

End Server.

(** ** The server as a transition system

    One handler thread per accepted connection; each message is handled in
    one step, and a handler that leaves its loop runs its [finally] block. *)

Section Runs.
Context `{RE : RulesEngine}.

Record World := {
  globals : Globals;
  (** the handlers that are in their main loop, with [addr] and [assigned_role] *)
  handlers : gmap Conn (Addr * Role);
}.

Definition initial_world : World :=
  {| globals := initial_globals; handlers := ∅ |}.

Inductive Event :=
| Connect (c : Conn) (addr : Addr) (rcv : Received)
| Recv (c : Conn) (env : Env) (rcv : Received)
| Tick (current_time now : Z).

Definition step (w : World) (ev : Event) : World :=
  match ev with
  | Connect c addr rcv =>
      match handlers w !! c with
      | Some _ => w
      | None =>
          let '(st, role, go) := first_message c addr rcv (globals w) in
          if go then {| globals := st; handlers := <[c := (addr, role)]> (handlers w) |}
          else {| globals := disconnect c addr role st; handlers := handlers w |}
      end
  | Recv c env rcv =>
      match handlers w !! c with
      | None => w
      | Some (addr, role) =>
          let '(st, go) := handle_message c addr role env rcv (globals w) in
          if go then {| globals := st; handlers := handlers w |}
          else {| globals := disconnect c addr role st;
                  handlers := delete c (handlers w) |}
      end
  | Tick current_time now =>
      {| globals := check_move_timers current_time now (globals w);
         handlers := handlers w |}
  end.

Definition run (evs : list Event) : World := foldl step initial_world evs.

(** The states the server can be in. *)
Definition reachable (w : World) : Prop := ∃ evs, w = run evs.

End Runs.

(** ** A small rules engine for concrete runs

    A board is the list of moves played and the side to move; the legal
    moves come from a fixed opening book that ends in the fool's mate. *)
Module Book.

Definition Position := (list string * bool)%type.

Definition book (white_to_move : bool) : list string :=
  if white_to_move then ["e2e4"; "f2f3"; "g2g4"] else ["e7e5"; "d8h4"].

Definition fools_mate (b : Position) : bool :=
  bool_decide (fst b = ["f2f3"; "e7e5"; "g2g4"; "d8h4"]).

Definition book_moves (b : Position) : list string :=
  if fools_mate b then [] else book (snd b).

Definition parse (text : string) : option string :=
  if bool_decide (String.length text = 4%nat ∨ String.length text = 5%nat)
  then Some text else None.

#[export] Instance engine : RulesEngine := {|
  Board := Position;
  Move := string;
  initial_board := ([], true);
  board_turn := snd;
  legal_moves := book_moves;
  push := λ b m, (fst b ++ [m], negb (snd b));
  fen := λ b, String.concat " " (fst b ++ [if snd b then "w" else "b"]);
  is_checkmate := fools_mate;
  is_stalemate := λ _, false;
  is_insufficient_material := λ _, false;
  is_game_over := fools_mate;
  is_check := fools_mate;
  is_capture := λ _ _, false;
  piece_at := λ _ _, None;
  set_turn := λ b c, (fst b, c);
  from_uci := parse;
  uci_error := λ text, "invalid uci: " +:+ text;
|}.

End Book.

(** ** The client: [ChessClient.receive_data]

    The receive buffer is a Python [str]; it is modelled as a list of
    characters with code points below 256. *)

Module Receiver.

Definition backslash : ascii := "092"%char.
Definition dquote : ascii := "034"%char.
Definition lbrace : ascii := "{"%char.
Definition rbrace : ascii := "}"%char.

(** The [for i, char in enumerate(buffer)] loop, entered at index [i] with
    the values of [json_depth], [in_string] and [escape_next]; the result is
    [msg_end], still 0 when the loop runs off the buffer. *)
Fixpoint scan (buffer : list ascii) (i : nat) (json_depth : Z)
    (in_string escape_next : bool) : nat :=
  match buffer with
  | [] => 0
  | char :: rest =>
      if escape_next then scan rest (S i) json_depth in_string false
      else if decide (char = backslash) then scan rest (S i) json_depth in_string true
      else if decide (char = dquote) then
        scan rest (S i) json_depth (negb in_string) false
      else if negb in_string then
        if decide (char = lbrace) then scan rest (S i) (json_depth + 1) in_string false
        else if decide (char = rbrace) then
          if (json_depth - 1 =? 0)%Z then S i
          else scan rest (S i) (json_depth - 1) in_string false
        else scan rest (S i) json_depth in_string false
      else scan rest (S i) json_depth in_string false
  end.

Definition find_msg_end (buffer : list ascii) : nat := scan buffer 0 0 false false.

(** [str.isspace] on the code points below 256. *)
Definition is_space (c : ascii) : bool :=
  let n := nat_of_ascii c in
  ((9 <=? n) && (n <=? 13) || (28 <=? n) && (n <=? 32) ||
   (n =? 133) || (n =? 160))%nat.

Fixpoint lstrip (s : list ascii) : list ascii :=
  match s with
  | c :: rest => if is_space c then lstrip rest else s
  | [] => []
  end.

Definition rstrip (s : list ascii) : list ascii := reverse (lstrip (reverse s)).

(** [s.strip()] *)
Definition strip (s : list ascii) : list ascii := rstrip (lstrip s).

(** What [json.loads] does with a span. *)
Inductive Loads (M : Type) :=
| Loaded (m : M)
| JSONDecodeError
| OtherError.
Arguments Loaded {M} m.
Arguments JSONDecodeError {M}.
Arguments OtherError {M}.

(** What [self.socket.recv(2048).decode()] gives. *)
Inductive Read :=
| Data (text : list ascii)
| Failure.

Section Loop.
Context {M : Type} (loads : list ascii → Loads M).

(** The [while buffer:] loop.  The result is the list of messages handed to
    [process_message], the buffer left, and whether the loop was left
    without an exception other than [JSONDecodeError]; [None] when [fuel]
    rounds were not enough. *)
Fixpoint drain (fuel : nat) (buffer : list ascii) : option (list M * list ascii * bool) :=
  match buffer with
  | [] => Some ([], [], true)
  | _ =>
      match fuel with
      | O => None
      | S fuel =>
          let msg_end := find_msg_end buffer in
          if (msg_end =? 0)%nat then Some ([], buffer, true)
          else
            let msg_str := take msg_end buffer in
            let buffer := strip (drop msg_end buffer) in
            match loads msg_str with
            | Loaded msg =>
                '(msgs, buffer, ok) ← drain fuel buffer;
                Some (msg :: msgs, buffer, ok)
            | JSONDecodeError =>
                Some ([], if (1000 <? List.length buffer)%nat then [] else buffer, true)
            | OtherError => Some ([], buffer, false)
            end
      end
  end.

(** The receiver thread: its local [buffer], [self.connected], whether the
    thread is still in its loop, and the messages handed on so far. *)
Record State := {
  buffer : list ascii;
  connected : bool;
  running : bool;
  delivered : list M;
}.

Definition start : State :=
  {| buffer := []; connected := true; running := true; delivered := [] |}.

(** One round of the [while self.connected:] loop. *)
Definition receive (rd : Read) (st : State) : State :=
  if negb (running st && connected st) then st
  else
    match rd with
    | Failure =>
        {| buffer := buffer st; connected := false; running := false;
           delivered := delivered st |}
    | Data [] =>
        {| buffer := buffer st; connected := connected st; running := false;
           delivered := delivered st |}
    | Data text =>
        let buf := buffer st ++ text in
        match drain (List.length buf) buf with
        | Some (msgs, buf, true) =>
            {| buffer := buf; connected := connected st; running := true;
               delivered := delivered st ++ msgs |}
        | Some (msgs, buf, false) =>
            {| buffer := buf; connected := false; running := false;
               delivered := delivered st ++ msgs |}
        | None => st
        end
    end.

(** The reads of a connection, one after the other. *)
Definition receive_all (reads : list Read) (st : State) : State :=
  foldl (λ st rd, receive rd st) st reads.

End Loop.

(** JSON text written with ['] for the double quote. *)
Definition json_text (s : string) : list ascii :=
  map (λ c, if decide (c = "'"%char) then dquote else c) (list_ascii_of_string s).

End Receiver.

(** ** The search opponent: [ChessAI] *)

(** The values [_minimax] computes with: integers and the two floats
    [float('-inf')] and [float('inf')]. *)
Inductive Score := NegInf | Fin (z : Z) | PosInf.

Module Score.

Definition leb (a b : Score) : bool :=
  match a, b with
  | NegInf, _ => true
  | _, PosInf => true
  | Fin x, Fin y => (x <=? y)%Z
  | _, _ => false
  end.

(** [a > b] *)
Definition gtb (a b : Score) : bool := negb (leb a b).

(** [max(a, b)]: the first argument unless the second is greater. *)
Definition max (a b : Score) : Score := if gtb b a then b else a.

(** [min(a, b)] *)
Definition min (a b : Score) : Score := if gtb a b then b else a.

(** [-a] *)
Definition neg (a : Score) : Score :=
  match a with NegInf => PosInf | Fin z => Fin (- z) | PosInf => NegInf end.

End Score.

Module Tables.

Definition pawn_table : list Z :=
  [ 0;  0;  0;  0;  0;  0;  0;  0;
    5; 10; 10;-20;-20; 10; 10;  5;
    5; -5;-10;  0;  0;-10; -5;  5;
    0;  0;  0; 20; 20;  0;  0;  0;
    5;  5; 10; 25; 25; 10;  5;  5;
    10; 10; 20; 30; 30; 20; 10; 10;
    50; 50; 50; 50; 50; 50; 50; 50;
    0;  0;  0;  0;  0;  0;  0;  0 ].

Definition knight_table : list Z :=
  [ -50;-40;-30;-30;-30;-30;-40;-50;
    -40;-20;  0;  5;  5;  0;-20;-40;
    -30;  5; 10; 15; 15; 10;  5;-30;
    -30;  0; 15; 20; 20; 15;  0;-30;
    -30;  5; 15; 20; 20; 15;  5;-30;
    -30;  0; 10; 15; 15; 10;  0;-30;
    -40;-20;  0;  0;  0;  0;-20;-40;
    -50;-40;-30;-30;-30;-30;-40;-50 ].

Definition bishop_table : list Z :=
  [ -20;-10;-10;-10;-10;-10;-10;-20;
    -10;  5;  0;  0;  0;  0;  5;-10;
    -10; 10; 10; 10; 10; 10; 10;-10;
    -10;  0; 10; 10; 10; 10;  0;-10;
    -10;  5;  5; 10; 10;  5;  5;-10;
    -10;  0;  5; 10; 10;  5;  0;-10;
    -10;  0;  0;  0;  0;  0;  0;-10;
    -20;-10;-10;-10;-10;-10;-10;-20 ].

Definition rook_table : list Z :=
  [ 0;  0;  0;  5;  5;  0;  0;  0;
    -5;  0;  0;  0;  0;  0;  0; -5;
    -5;  0;  0;  0;  0;  0;  0; -5;
    -5;  0;  0;  0;  0;  0;  0; -5;
    -5;  0;  0;  0;  0;  0;  0; -5;
    -5;  0;  0;  0;  0;  0;  0; -5;
    5; 10; 10; 10; 10; 10; 10;  5;
    0;  0;  0;  0;  0;  0;  0;  0 ].

Definition queen_table : list Z :=
  [ -20;-10;-10; -5; -5;-10;-10;-20;
    -10;  0;  5;  0;  0;  0;  0;-10;
    -10;  5;  5;  5;  5;  5;  0;-10;
    0;  0;  5;  5;  5;  5;  0; -5;
    -5;  0;  5;  5;  5;  5;  0; -5;
    -10;  0;  5;  5;  5;  5;  0;-10;
    -10;  0;  0;  0;  0;  0;  0;-10;
    -20;-10;-10; -5; -5;-10;-10;-20 ].

Definition king_middlegame_table : list Z :=
  [ 20; 30; 10;  0;  0; 10; 30; 20;
    20; 20;  0;  0;  0;  0; 20; 20;
    -10;-20;-20;-20;-20;-20;-20;-10;
    -20;-30;-30;-40;-40;-30;-30;-20;
    -30;-40;-40;-50;-50;-40;-40;-30;
    -30;-40;-40;-50;-50;-40;-40;-30;
    -30;-40;-40;-50;-50;-40;-40;-30;
    -30;-40;-40;-50;-50;-40;-40;-30 ].

Definition piece_values (p : PieceType) : Z :=
  match p with
  | PAWN => 100 | KNIGHT => 320 | BISHOP => 330
  | ROOK => 500 | QUEEN => 900 | KING => 20000
  end.

Definition piece_tables (p : PieceType) : list Z :=
  match p with
  | PAWN => pawn_table | KNIGHT => knight_table | BISHOP => bishop_table
  | ROOK => rook_table | QUEEN => queen_table | KING => king_middlegame_table
  end.

End Tables.

(** [str.lower] on the code points below 256. *)
Definition lower_char (c : ascii) : ascii :=
  let n := nat_of_ascii c in
  if ((65 <=? n) && (n <=? 90) ||
      (192 <=? n) && (n <=? 222) && negb (n =? 215))%nat
  then ascii_of_nat (n + 32) else c.

Fixpoint lower (s : string) : string :=
  match s with
  | EmptyString => EmptyString
  | String c rest => String (lower_char c) (lower rest)
  end.

(** The draws of the [random] module during one call of [_get_random_move]:
    the outcomes of the two [random.random() < p] tests, when they are
    evaluated, and the index [random.choice] picks. *)
Record Draws := {
  capture_roll : bool;   (* random.random() < 0.7 *)
  check_roll : bool;     (* random.random() < 0.5 *)
  choice_index : nat;
}.

Section ChessAI.
Context `{RE : RulesEngine}.

Record ChessAI := {
  difficulty : string;
  depth : nat;
}.

(** [ChessAI.__init__] *)
Definition ChessAI_init (difficulty : string) : ChessAI :=
  let d := lower difficulty in
  if decide (d = "easy") then {| difficulty := d; depth := 1 |}
  else if decide (d = "medium") then {| difficulty := d; depth := 2 |}
  else if decide (d = "hard") then {| difficulty := d; depth := 3 |}
  else {| difficulty := "medium"; depth := 2 |}.

(** [random.choice(seq)]: [None] for the [IndexError] on an empty list. *)
Definition choice (k : nat) (seq : list Move) : option Move :=
  match seq with
  | [] => None
  | _ => seq !! (k mod List.length seq)%nat
  end.

(** [ChessAI._get_random_move] *)
Definition _get_random_move (b : Board) (rnd : Draws) : option Move :=
  let legal := legal_moves b in
  let captures := filter (λ m, is_capture b m = true) legal in
  let checks := filter (λ m, is_capture b m = false ∧ is_check (push b m) = true) legal in
  if negb (bool_decide (captures = [])) && capture_roll rnd then
    choice (choice_index rnd) captures
  else if negb (bool_decide (checks = [])) && check_roll rnd then
    choice (choice_index rnd) checks
  else choice (choice_index rnd) legal.

(** The contribution of one square to the score of [_evaluate_board]. *)
Definition square_score (b : Board) (square : nat) : Z :=
  match piece_at b square with
  | None => 0
  | Some (piece_type, color) =>
      let value := Tables.piece_values piece_type * (if color then 1 else -1) in
      let position_value :=
        if color then nth (63 - square) (Tables.piece_tables piece_type) 0
        else nth square (Tables.piece_tables piece_type) 0 * -1 in
      value + position_value
  end.

(** [ChessAI._evaluate_board] *)
Definition _evaluate_board (b : Board) : Z :=
  if is_checkmate b then (if board_turn b then -10000 else 10000)
  else if is_stalemate b || is_insufficient_material b then 0
  else
    let score := foldl (λ score square, score + square_score b square) 0 (seq 0 64) in
    let white_moves := Z.of_nat (List.length (legal_moves (set_turn b WHITE))) in
    let black_moves := Z.of_nat (List.length (legal_moves (set_turn b BLACK))) in
    score + (white_moves - black_moves) * 5.

(** The loop of the maximizing branch of [_minimax] over the moves not yet
    tried; [child] is the recursive call one ply down. *)
Fixpoint maximize (child : Board → Score → Score → Score) (b : Board)
    (moves : list Move) (value alpha beta : Score) : Score :=
  match moves with
  | [] => value
  | move :: rest =>
      let value := Score.max value (child (push b move) alpha beta) in
      let alpha := Score.max alpha value in
      if Score.leb beta alpha then value
      else maximize child b rest value alpha beta
  end.

(** The loop of the minimizing branch. *)
Fixpoint minimize (child : Board → Score → Score → Score) (b : Board)
    (moves : list Move) (value alpha beta : Score) : Score :=
  match moves with
  | [] => value
  | move :: rest =>
      let value := Score.min value (child (push b move) alpha beta) in
      let beta := Score.min beta value in
      if Score.leb beta alpha then value
      else minimize child b rest value alpha beta
  end.

(** [ChessAI._minimax] *)
Fixpoint _minimax (depth : nat) (b : Board) (alpha beta : Score)
    (is_maximizing : bool) : Score :=
  match depth with
  | O => Fin (_evaluate_board b)
  | S depth' =>
      if is_game_over b then Fin (_evaluate_board b)
      else if is_maximizing then
        maximize (λ b' alpha beta, _minimax depth' b' alpha beta false)
                 b (legal_moves b) NegInf alpha beta
      else
        minimize (λ b' alpha beta, _minimax depth' b' alpha beta true)
                 b (legal_moves b) PosInf alpha beta
  end.

(** The loop of [_minimax_root] over the moves not yet tried. *)
Fixpoint root_loop (depth : nat) (b : Board) (moves : list Move)
    (best_move : Move) (best_value alpha beta : Score) : Move :=
  match moves with
  | [] => best_move
  | move :: rest =>
      let b' := push b move in
      let value := Score.neg (_minimax (depth - 1) b' (Score.neg beta) (Score.neg alpha)
                                (negb (board_turn b'))) in
      let '(best_value, best_move) :=
        if Score.gtb value best_value then (value, move) else (best_value, best_move) in
      root_loop depth b rest best_move best_value (Score.max alpha value) beta
  end.

(** [ChessAI._minimax_root] *)
Definition _minimax_root (b : Board) (depth : nat) : option Move :=
  match legal_moves b with
  | [] => None
  | first :: _ => Some (root_loop depth b (legal_moves b) first NegInf NegInf PosInf)
  end.

(** [ChessAI.get_move]; [None] is the [None] of [_minimax_root] or the
    [IndexError] of [random.choice]. *)
Definition get_move (ai : ChessAI) (b : Board) (rnd : Draws) : option Move :=
  if decide (difficulty ai = "easy") then _get_random_move b rnd
  else _minimax_root b (depth ai).

End ChessAI.

(** ** Sample inputs *)

Module Samples.
Import Receiver.

(** Two messages whose second one holds a blank inside a string, cut right
    after that blank. *)
Definition first_message_text : list ascii := json_text "{'a':1}".
Definition second_message_text : list ascii := json_text "{'b':' x'}".
Definition second_message_cut : list ascii := json_text "{'b':'x'}".
Definition chunk1 : list ascii := json_text "{'a':1}{'b':' ".
Definition chunk2 : list ascii := json_text "x'}".

(** Three connections and the messages they send. *)
Definition alice : Conn := 1%nat.
Definition bob : Conn := 2%nat.
Definition carol : Conn := 3%nat.
Definition alice_addr : Addr := ("10.0.0.1", 40001).
Definition bob_addr : Addr := ("10.0.0.2", 40002).
Definition carol_addr : Addr := ("10.0.0.3", 40003).

Definition message (type : string) : ClientMsg :=
  {| m_type := Str type; m_role := Absent; m_game_id := Absent;
     m_password := Absent; m_move := Absent; m_msg := Absent |}.

Definition join_player : Received := Decoded (message "join").

Definition join_spectator (gid : string) : Received :=
  Decoded {| m_type := Str "join"; m_role := Str "spectator"; m_game_id := Str gid;
             m_password := Absent; m_move := Absent; m_msg := Absent |}.

Definition create_msg (pw : Field) : ClientMsg :=
  {| m_type := Str "create_game"; m_role := Absent; m_game_id := Absent;
     m_password := pw; m_move := Absent; m_msg := Absent |}.

Definition join_msg (gid : string) (pw : Field) : ClientMsg :=
  {| m_type := Str "join_game"; m_role := Absent; m_game_id := Str gid;
     m_password := pw; m_move := Absent; m_msg := Absent |}.

Definition move_msg (text : string) : ClientMsg :=
  {| m_type := Str "move"; m_role := Absent; m_game_id := Absent;
     m_password := Absent; m_move := Str text; m_msg := Absent |}.

Definition quit_game_msg : Received := Decoded (message "quit_game").
Definition lobby_request : Received := Decoded (message "lobby_request").

(** Clock reading [t], next game identifier [gid]. *)
Definition at_time (t : Z) (gid : string) : Env := {| now := t; fresh_id := gid |}.

(** Alice is in the lobby. *)
Definition in_lobby_trace : list Event :=
  [ Connect alice alice_addr join_player ].

(** Alice has created the public game g1 and waits. *)
Definition waiting_trace : list Event :=
  in_lobby_trace ++ [ Recv alice (at_time 0 "g1") (Decoded (create_msg Absent)) ].

(** Bob has joined it: the game runs, White to move. *)
Definition started_trace : list Event :=
  waiting_trace ++
  [ Connect bob bob_addr join_player;
    Recv bob (at_time 0 "g1") (Decoded (join_msg "g1" Absent)) ].

(** Alice has created the private game g1 with password "secret"; Bob is in
    the lobby. *)
Definition private_trace : list Event :=
  in_lobby_trace ++
  [ Recv alice (at_time 0 "g1") (Decoded (create_msg (Str "secret")));
    Connect bob bob_addr join_player ].

(** The watchdog fires 61 seconds after the start. *)
Definition timeout_trace : list Event :=
  started_trace ++ [ Tick 61 61 ].

(** Alice creates a game, quits it while it waits, joins it herself, quits
    again and creates another game. *)
Definition quit_rejoin_trace : list Event :=
  waiting_trace ++
  [ Recv alice (at_time 1 "g1") quit_game_msg;
    Recv alice (at_time 2 "g1") (Decoded (join_msg "g1" Absent));
    Recv alice (at_time 3 "g1") quit_game_msg;
    Recv alice (at_time 4 "g2") (Decoded (create_msg Absent)) ].

(** Carol watches the running game and Alice quits it. *)
Definition quit_watched_trace : list Event :=
  started_trace ++
  [ Connect carol carol_addr (join_spectator "g1");
    Recv alice (at_time 5 "g2") quit_game_msg ].

(** Carol watches the running game, which ends with the fool's mate. *)
Definition mate_watched_trace : list Event :=
  started_trace ++
  [ Connect carol carol_addr (join_spectator "g1");
    Recv alice (at_time 5 "g2") (Decoded (move_msg "f2f3"));
    Recv bob (at_time 6 "g2") (Decoded (move_msg "e7e5"));
    Recv alice (at_time 7 "g2") (Decoded (move_msg "g2g4"));
    Recv bob (at_time 8 "g2") (Decoded (move_msg "d8h4")) ].

(** Carol watches the running game and Alice's connection breaks. *)
Definition disconnect_watched_trace : list Event :=
  started_trace ++
  [ Connect carol carol_addr (join_spectator "g1");
    Recv alice (at_time 5 "g2") Eof ].

(** The session object behind a reference (a fresh one when there is none). *)
Definition session (r : nat) (st : Globals (RE := Book.engine)) : GameSession :=
  default (GameSession_init 0 0 ("", 0) None "" 0) (heap st !! r).

(** A parser for which every span is a message, the span itself. *)
Definition spans : list ascii → Loads (list ascii) := Loaded.

(** A parser that rejects every span. *)
Definition rejects : list ascii → Loads (list ascii) := λ _, JSONDecodeError.

(** A board played by the book engine, after 1. e4. *)
Definition after_e4 : Board (RulesEngine := Book.engine) := (["e2e4"], false).

End Samples.

(** ** Vocabulary of the statements *)

Section Vocabulary.
Context `{RE : RulesEngine}.

(** The state with more entries in its send log. *)
Definition log (l : list (Conn * Msg)) (st : Globals) : Globals :=
  {| lobby := lobby st; games := games st; waiting_games := waiting_games st;
     spectators_of := spectators_of st; heap := heap st;
     sent := sent st ++ l |}.

(** The log entries of one broadcast. *)
Definition to_all (cs : list Conn) (m : Msg) : list (Conn * Msg) :=
  map (λ c, (c, m)) cs.

(** The seat colour the [move] branch computes for a connection. *)
Definition seat_color (game : GameSession) (c : Conn) : Color :=
  bool_decide (Some c = white_conn game).

(** The condition under which a move request is taken: it is the sender's
    turn, the text parses, and the engine lists the move as legal. *)
Definition move_acceptable (game : GameSession) (c : Conn) (m : ClientMsg)
    (text : string) (mv : Move) : Prop :=
  turn game = seat_color game c ∧ m_move m = Str text ∧
  from_uci text = Some mv ∧ mv ∈ legal_moves (board game).

(** A request was taken as a move: the session behind [r] holds the pushed
    board, the other colour and the new time stamp, and the move went out to
    the session first. *)
Definition move_taken (game : GameSession) (text : string) (mv : Move) (t : Z)
    (r : nat) (st st' : Globals) : Prop :=
  heap st' !! r = Some (set_turn_time (negb (turn game)) t
                          (set_board (push (board game) mv) game)) ∧
  ∃ rest, sent st' = sent st
            ++ to_all (recipients game) (MMove text (fen (push (board game) mv)))
            ++ rest.

(** A request was refused: nothing changed but the log, which got one error
    message for the sender. *)
Definition move_refused (c : Conn) (st st' : Globals) : Prop :=
  ∃ err, st' = send c (MError err) st.

(** The password a [join_game] request is checked with. *)
Definition provided_password (m : ClientMsg) : option string :=
  field_get_default (m_password m) "".

(** The session has run out of time at [current_time] and the side to move
    still has a connection in [players]. *)
Definition timed_out (current_time : Z) (game : GameSession) : Prop :=
  current_time - last_move_time game > MOVE_TIMEOUT_SECONDS ∧
  is_Some (players game !! turn game).

Global Instance timed_out_dec ct game : Decision (timed_out ct game).
Proof. unfold timed_out. apply _. Defined.

(** What the watchdog does to one session object. *)
Definition timeout_step (current_time t : Z) (game : GameSession) : GameSession :=
  if decide (timed_out current_time game)
  then set_turn_time (negb (turn game)) t game
  else game.

(** The four broadcasts of a timeout, in the order of the source. *)
Definition timeout_messages (game : GameSession) : list Msg :=
  [ MInfo (color_name (turn game) +:+ " took too long. Turn passes to opponent.");
    MTimeoutSync (color_name (turn game)) (fen (board game))
                 (color_name (negb (turn game)));
    MBoard (fen (board game));
    MTurn (color_name (negb (turn game))) "active" MOVE_TIMEOUT_SECONDS ].

(** The messages a connection was sent, oldest first. *)
Definition received_by (c : Conn) (l : list (Conn * Msg)) : list Msg :=
  omap (λ cm, if decide (fst cm = c) then Some (snd cm) else None) l.

(** The registry reading of the specification: a session that is in
    [waiting_games] is referenced by no entry of [games]. *)
Definition waiting_not_active (st : Globals) : Prop :=
  ∀ k r, Dict.get k (waiting_games st) = Some r → ∀ c, games st !! c ≠ Some r.

(** A connection is in at most one of the lobby, the keys of [games] and the
    keys of the spectator bindings. *)
Definition in_one_place (st : Globals) (c : Conn) : Prop :=
  ¬ (c ∈ map fst (lobby st) ∧ is_Some (games st !! c)) ∧
  ¬ (c ∈ map fst (lobby st) ∧ is_Some (spectators_of st !! c)) ∧
  ¬ (is_Some (games st !! c) ∧ is_Some (spectators_of st !! c)).

(** No registry refers to the session object [r]. *)
Definition unregistered (r : nat) (st : Globals) : Prop :=
  (∀ c, games st !! c ≠ Some r) ∧
  (∀ k, Dict.get k (waiting_games st) ≠ Some r) ∧
  (∀ c, spectators_of st !! c ≠ Some r).

(** Two session objects with the same seats and identifier. *)
Definition same_seats (g g' : GameSession) : Prop :=
  white_conn g' = white_conn g ∧ black_conn g' = black_conn g ∧
  game_id g' = game_id g.

(** Every session object is still there, with its seats and identifier. *)
Definition keeps_seats (h h' : list GameSession) : Prop :=
  ∀ r g, h !! r = Some g → ∃ g', h' !! r = Some g' ∧ same_seats g g'.

(** A change of state that adds no entry to [games] or [waiting_games] and
    keeps the seats of every session. *)
Definition shrinks (st st' : Globals) : Prop :=
  (Dict.wf (waiting_games st) →
     Dict.wf (waiting_games st') ∧
     ∀ k r, Dict.get k (waiting_games st') = Some r →
            Dict.get k (waiting_games st) = Some r) ∧
  (∀ c r, games st' !! c = Some r → games st !! c = Some r) ∧
  keeps_seats (heap st) (heap st').

(** What holds of the registries in every state of the server: the keys of
    [waiting_games] are distinct; a waiting session carries its key as
    identifier and has its white seat filled and its black seat empty; a
    key of [games] is seated in the session it maps to. *)
Definition registry_invariant (st : Globals) : Prop :=
  Dict.wf (waiting_games st) ∧
  (∀ k r, Dict.get k (waiting_games st) = Some r →
     ∃ game, heap st !! r = Some game ∧ game_id game = k ∧
             is_Some (white_conn game) ∧ black_conn game = None) ∧
  (∀ c r, games st !! c = Some r →
     ∃ game, heap st !! r = Some game ∧
             (white_conn game = Some c ∨ black_conn game = Some c)).

(** What one scan sends on behalf of the session behind [r]. *)
Definition scan_messages (current_time : Z) (st : Globals) (r : nat) : list (Conn * Msg) :=
  match heap st !! r with
  | Some game =>
      if decide (timed_out current_time game)
      then mjoin (map (to_all (recipients game)) (timeout_messages game))
      else []
  | None => []
  end.

(** A sequence of watchdog scans, each with its two clock readings. *)
Definition scans (ticks : list (Z * Z)) (st : Globals) : Globals :=
  foldl (λ st tick, check_move_timers (fst tick) (snd tick) st) st ticks.

End Vocabulary.


(** ** More vocabulary: the end of a game *)

Section EndOfGame.
Context `{RE : RulesEngine}.

(** The position ends the game as [next_turn] sees it. *)
Definition terminal (b : Board) : bool :=
  is_checkmate b || is_stalemate b || is_insufficient_material b.

(** The notice [next_turn] broadcasts for a position that ends the game;
    [to_move] is the turn colour after the flip. *)
Definition end_notice (b : Board) (to_move : Color) : list Msg :=
  if is_checkmate b then
    [MInfo ("Checkmate! " +:+ (if to_move then "Black" else "White") +:+ " wins!")]
  else if is_stalemate b then [MInfo "Stalemate! Game ends in a draw."]
  else if is_insufficient_material b then [MInfo "Draw due to insufficient material."]
  else [].

(** The spectator bindings after the loop of the disconnection path. *)
Definition unbind_all (specs : list Conn) (m : gmap Conn nat) : gmap Conn nat :=
  foldl (λ m spec, delete spec m) m specs.

End EndOfGame.


(** ** More vocabulary: string bodies *)

(** The text between the quotes of a JSON string as the scan reads it:
    characters other than the quote and the backslash, and backslashes
    followed by any one character. *)
Inductive string_body : list ascii → Prop :=
| body_nil : string_body []
| body_plain c rest :
    c ≠ Receiver.dquote → c ≠ Receiver.backslash →
    string_body rest → string_body (c :: rest)
| body_escape c rest :
    string_body rest → string_body (Receiver.backslash :: c :: rest).


(** ** More vocabulary: the search without pruning *)

Section Unpruned.
Context `{RE : RulesEngine}.

(** The value of a position by the recursion of [_minimax] with the two
    cut-offs left out: every move of every node is looked at. *)
Fixpoint unpruned (depth : nat) (b : Board) (is_maximizing : bool) : Score :=
  match depth with
  | O => Fin (_evaluate_board b)
  | S depth' =>
      if is_game_over b then Fin (_evaluate_board b)
      else if is_maximizing then
        foldl (λ value move, Score.max value (unpruned depth' (push b move) false))
              NegInf (legal_moves b)
      else
        foldl (λ value move, Score.min value (unpruned depth' (push b move) true))
              PosInf (legal_moves b)
  end.



End Unpruned.

(** A search result [r] for a node of exact value [v] under the window
    [(alpha, beta)]: exact inside the window, a bound outside it. *)
Definition fail_soft (r v alpha beta : Score) : Prop :=
  (Score.leb r alpha = true → Score.leb v r = true) ∧
  (Score.leb beta r = true → Score.leb r v = true) ∧
  (Score.gtb r alpha = true → Score.gtb beta r = true → r = v).


(** ** The client's list of available games

    The text path of [ChessClient.update_lobby] and
    [ChessClient.join_selected_game]: one line per game is put into the list
    box, and the request to join is made from the line that is selected.
    Text is a list of code points, as the lock sign of the source is made of
    code points above 255. *)
Module LobbyText.

Definition text := list N.

Definition of_string (s : string) : text :=
  map N_of_ascii (list_ascii_of_string s).

Definition hash : N := 35.
Definition space : N := 32.

(** The four characters that stand for the lock in the source file. *)
Definition lock : text := [0xF0; 0x178; 0x201D; 0x2019]%N.

Definition no_games : text := of_string "No available games".

(** [s.startswith(prefix)] *)
Fixpoint startswith (pre s : text) : bool :=
  match pre, s with
  | [], _ => true
  | p :: pre', c :: s' => bool_decide (p = c) && startswith pre' s'
  | _ :: _, [] => false
  end.

(** [needle in s] *)
Fixpoint contains (needle s : text) : bool :=
  startswith needle s ||
  match s with
  | [] => false
  | _ :: s' => contains needle s'
  end.

(** [s.split(sep)] for a separator of one character. *)
Fixpoint split (sep : N) (s : text) : list text :=
  match s with
  | [] => [[]]
  | c :: s' =>
      if decide (c = sep) then [] :: split sep s'
      else match split sep s' with
           | part :: parts => (c :: part) :: parts
           | [] => [[c]]
           end
  end.

(** The line [update_lobby] inserts for one entry of "available_games". *)
Definition game_line (is_private : bool) (game_id creator : text) : text :=
  (if is_private then lock ++ [space] else []) ++
  of_string "Game #" ++ game_id ++ of_string " - Created by " ++ creator.

(** What [join_selected_game] reads from the selected line: the privacy mark
    and the game id, or nothing when it returns early. *)
Definition selected_game (game_text : text) : option (bool * text) :=
  if contains no_games game_text then None
  else
    let is_private := startswith lock game_text in
    if bool_decide (hash ∈ game_text) then
      match split hash game_text with
      | _ :: part :: _ =>
          match split space part with
          | game_id :: _ => Some (is_private, game_id)
          | [] => None
          end
      | _ => None
      end
    else None.

(** The request [join_selected_game] sends while connected: the game id and
    the password key, if any; [answer] is what the password dialog returns
    when it is shown ([None] when it is dismissed). *)
Definition join_request (game_text : text) (answer : option text)
    : option (text * option text) :=
  '(is_private, game_id) ← selected_game game_text;
  if is_private : bool then
    match answer with
    | Some (c :: password) => Some (game_id, Some (c :: password))
    | _ => None
    end
  else Some (game_id, None).

End LobbyText.


(** ** More sample inputs *)

Module MoreSamples.
Import Receiver Samples.

Definition spectate_msg (gid : string) : ClientMsg :=
  {| m_type := Str "join"; m_role := Str "spectator"; m_game_id := Str gid;
     m_password := Absent; m_move := Absent; m_msg := Absent |}.

Definition chat_msg (text : string) : ClientMsg :=
  {| m_type := Str "chat"; m_role := Absent; m_game_id := Absent;
     m_password := Absent; m_move := Absent; m_msg := Str text |}.

(** Carol watches the running game. *)
Definition watched_trace : list Event :=
  started_trace ++ [ Connect carol carol_addr (join_spectator "g1") ].


(** A message in two pieces, and a text that is not finished. *)
Definition pieces : list (list ascii) := [ json_text "{'a'"; json_text ":1}" ].
Definition unfinished : list (list ascii) := [ json_text "{'b':"; json_text "' x" ].

(** A string body with a brace, an escaped quote and another brace. *)
Definition tricky_body : list ascii := [ rbrace; backslash; dquote; lbrace ].

End MoreSamples.


(** ** A second small rules engine, with captures

    A board is the side to move; each side has a quiet move and a capture. *)
Module Skirmish.

Definition skirmish_moves (white_to_move : bool) : list string :=
  if white_to_move then ["e4e5"; "e4d5"] else ["d5d4"; "d5e4"].

Definition takes (m : string) : bool :=
  bool_decide (m = "e4d5" ∨ m = "d5e4").

Definition engine : RulesEngine := {|
  Board := bool;
  Move := string;
  initial_board := true;
  board_turn := λ b, b;
  legal_moves := skirmish_moves;
  push := λ b _, negb b;
  fen := λ b : bool, if b then "w" else "b";
  is_checkmate := λ _, false;
  is_stalemate := λ _, false;
  is_insufficient_material := λ _, false;
  is_game_over := λ _, false;
  is_check := λ _, false;
  is_capture := λ _ m, takes m;
  piece_at := λ _ _, None;
  set_turn := λ _ c, c;
  from_uci := Some;
  uci_error := λ text, "invalid uci: " +:+ text;
|}.

End Skirmish.

(** * Theorems *)

(** ** Facts about dictionaries *)

Section DictFacts.
Context {V : Type}.

Lemma get_None_not_key k (d : Dict.t V) :
  k ∉ map fst d → Dict.get k d = None.
Proof.
  induction d as [|[k' v] d IH]; simpl; [done|].
  intros Hk. apply not_elem_of_cons in Hk as [Hne Hk].
  destruct (decide (k = k')); [done|]. by apply IH.
Qed.

Lemma get_del k (d : Dict.t V) : Dict.wf d → Dict.get k (Dict.del k d) = None.
Proof.
  unfold Dict.wf. induction d as [|[k' v] d IH]; simpl; [done|].
  intros Hnd. apply NoDup_cons in Hnd as [Hk' Hnd].
  destruct (decide (k = k')) as [->|Hne].
  - by apply get_None_not_key.
  - simpl. destruct (decide (k = k')); [done|]. by apply IH.
Qed.

Lemma get_del_ne k k' (d : Dict.t V) :
  k ≠ k' → Dict.get k (Dict.del k' d) = Dict.get k d.
Proof.
  intros Hne. induction d as [|[k0 v] d IH]; simpl; [done|].
  destruct (decide (k' = k0)) as [->|]; simpl.
  - destruct (decide (k = k0)); [done|done].
  - destruct (decide (k = k0)); [done|]. apply IH.
Qed.

Lemma get_set k v (d : Dict.t V) : Dict.get k (Dict.set k v d) = Some v.
Proof.
  induction d as [|[k0 v0] d IH]; simpl.
  - destruct (decide (k = k)); done.
  - destruct (decide (k = k0)) as [->|Hne]; simpl.
    + destruct (decide (k0 = k0)); done.
    + destruct (decide (k = k0)); done.
Qed.

Lemma get_set_ne k k' v (d : Dict.t V) :
  k' ≠ k → Dict.get k' (Dict.set k v d) = Dict.get k' d.
Proof.
  intros Hne. induction d as [|[k0 v0] d IH]; simpl.
  - by destruct (decide (k' = k)).
  - destruct (decide (k = k0)) as [->|Hne0]; simpl.
    + by destruct (decide (k' = k0)).
    + destruct (decide (k' = k0)); [done|apply IH].
Qed.

Lemma keys_set k v (d : Dict.t V) :
  ∀ k', k' ∈ map fst (Dict.set k v d) ↔ k' = k ∨ k' ∈ map fst d.
Proof.
  induction d as [|[k0 v0] d IH]; intros k'; simpl.
  - rewrite list_elem_of_singleton. set_solver.
  - destruct (decide (k = k0)) as [->|Hne]; simpl.
    + set_solver.
    + rewrite !elem_of_cons, IH. naive_solver.
Qed.

Lemma wf_set k v (d : Dict.t V) : Dict.wf d → Dict.wf (Dict.set k v d).
Proof.
  unfold Dict.wf. induction d as [|[k0 v0] d IH]; simpl.
  - intros _. apply NoDup_singleton.
  - intros Hnd. apply NoDup_cons in Hnd as [Hk0 Hnd].
    destruct (decide (k = k0)) as [->|Hne]; simpl.
    + by apply NoDup_cons.
    + apply NoDup_cons. split; [|by apply IH].
      rewrite keys_set. naive_solver.
Qed.

Lemma keys_del k (d : Dict.t V) : map fst (Dict.del k d) ⊆ map fst d.
Proof.
  induction d as [|[k0 v0] d IH]; simpl; [done|].
  destruct (decide (k = k0)); simpl; set_solver.
Qed.

Lemma wf_del k (d : Dict.t V) : Dict.wf d → Dict.wf (Dict.del k d).
Proof.
  unfold Dict.wf. induction d as [|[k0 v0] d IH]; simpl; [done|].
  intros Hnd. apply NoDup_cons in Hnd as [Hk0 Hnd].
  destruct (decide (k = k0)); simpl; [done|].
  apply NoDup_cons. split; [|by apply IH].
  intros Hin. apply Hk0. by apply (keys_del k d).
Qed.

End DictFacts.

(** ** Facts about the server *)

Section ServerFacts.
Context `{RE : RulesEngine}.

(** *** The send log *)

Lemma log_nil st : log [] st = st.
Proof. destruct st; unfold log; simpl. by rewrite app_nil_r. Qed.

Lemma log_log l1 l2 st : log l2 (log l1 st) = log (l1 ++ l2) st.
Proof. unfold log; simpl. by rewrite app_assoc. Qed.

Lemma send_log c m st : send c m st = log [(c, m)] st.
Proof. reflexivity. Qed.

Lemma send_all_log cs m st : send_all cs m st = log (to_all cs m) st.
Proof.
  revert st. induction cs as [|c cs IH]; intros st; simpl.
  - by rewrite log_nil.
  - unfold send_all in *. simpl. rewrite IH, send_log, log_log. reflexivity.
Qed.

Lemma broadcast_log g m st : broadcast g m st = log (to_all (recipients g) m) st.
Proof. apply send_all_log. Qed.

Lemma broadcast_lobby_log st :
  broadcast_lobby st = log (to_all (map fst (lobby st)) (lobby_state st)) st.
Proof. apply send_all_log. Qed.

Lemma heap_ended_cleanup game st : heap (ended_cleanup game st) = heap st.
Proof.
  unfold ended_cleanup. rewrite broadcast_lobby_log. simpl.
  destruct (black_conn game), (black_addr game), (white_conn game),
    (creator_address game); reflexivity.
Qed.

Lemma sent_ended_cleanup game st :
  ∃ l, sent (ended_cleanup game st) = sent st ++ l.
Proof.
  unfold ended_cleanup. rewrite broadcast_lobby_log.
  destruct (black_conn game), (black_addr game), (white_conn game),
    (creator_address game); simpl; rewrite <- ?app_assoc; eauto.
Qed.

(** [next_turn] rewrites turn and timer of the session and only adds to the log. *)
Lemma next_turn_spec r t st g0 :
  heap st !! r = Some g0 →
  ∃ l ended,
    next_turn r t st =
      (log l (update_game r (λ _, set_turn_time (negb (turn g0)) t g0) st), ended).
Proof.
  intros Hr. unfold next_turn. rewrite Hr.
  set (g := set_turn_time _ _ _).
  destruct (is_checkmate (board g));
    [|destruct (is_stalemate (board g));
       [|destruct (is_insufficient_material (board g))]];
    rewrite !broadcast_log, ?log_log; eauto.
Qed.

(** An accepted move: what [handle_move] leaves behind. *)
Lemma handle_move_accepted c env m r st game text mv :
  heap st !! r = Some game →
  move_acceptable game c m text mv →
  ∃ rest,
    heap (handle_move c env m r st) !! r =
      Some (set_turn_time (negb (turn game)) (now env)
              (set_board (push (board game) mv) game)) ∧
    sent (handle_move c env m r st) =
      sent st ++ to_all (recipients game) (MMove text (fen (push (board game) mv)))
              ++ rest.
Proof.
  intros Hr (Hturn & Hm & Huci & Hlegal).
  assert (Hlt : (r < List.length (heap st))%nat) by (eapply lookup_lt_Some; eauto).
  unfold handle_move. rewrite Hr. fold (seat_color game c). rewrite <- Hturn.
  rewrite Bool.eqb_reflx. simpl. rewrite Hm, Huci.
  rewrite bool_decide_eq_true_2 by done.
  set (g1 := set_board (push (board game) mv) game).
  rewrite broadcast_log.
  set (st1 := log _ (update_game r _ st)).
  assert (Hr1 : heap st1 !! r = Some g1).
  { subst st1. simpl. rewrite list_lookup_alter_eq, Hr. reflexivity. }
  destruct (next_turn_spec r (now env) st1 g1 Hr1) as (l & ended & ->).
  set (st2 := log l _).
  assert (Hr2 : heap st2 !! r = Some (set_turn_time (negb (turn game)) (now env) g1)).
  { subst st2 st1. simpl. rewrite !list_lookup_alter_eq, Hr. reflexivity. }
  assert (Hs2 : sent st2 = sent st ++
            to_all (recipients game) (MMove text (fen (push (board game) mv))) ++ l).
  { subst st2 st1. simpl. by rewrite <- app_assoc. }
  destruct ended.
  - destruct (sent_ended_cleanup g1 st2) as [l2 Hl2].
    exists (l ++ l2). rewrite heap_ended_cleanup, Hr2, Hl2, Hs2.
    split; [done|]. by rewrite <- !app_assoc.
  - exists l. by rewrite Hr2, Hs2.
Qed.

(** A refused move: the state is the old one with one error sent to the sender. *)
Lemma handle_move_rejected c env m r st game :
  heap st !! r = Some game →
  (¬ ∃ text mv, move_acceptable game c m text mv) →
  ∃ err, handle_move c env m r st = send c (MError err) st.
Proof.
  intros Hr Hno. unfold handle_move. rewrite Hr.
  fold (seat_color game c).
  destruct (Bool.eqb (turn game) (seat_color game c)) eqn:Hturn; simpl; [|eauto].
  apply Bool.eqb_prop in Hturn.
  destruct (m_move m) as [| |text] eqn:Hm; [eauto..|].
  destruct (from_uci text) as [mv|] eqn:Huci; [|eauto].
  case_bool_decide as Hlegal; [|eauto].
  exfalso. apply Hno. exists text, mv. by repeat split.
Qed.

(** A move request of a player with an entry in [games]: taken under
    [move_acceptable], refused otherwise; the handler goes on. *)
Lemma move_request_outcome c addr env m r st game :
  games st !! c = Some r →
  heap st !! r = Some game →
  m_type m = Str "move" →
  let res := handle_message c addr Player env (Decoded m) st in
  snd res = true ∧
  (∀ text mv, move_acceptable game c m text mv →
     move_taken game text mv (now env) r st (fst res)) ∧
  ((¬ ∃ text mv, move_acceptable game c m text mv) →
     move_refused c st (fst res)).
Proof.
  intros Hc Hr Hty. unfold handle_message. rewrite Hty, Hc. cbn [field_get].
  repeat (case_bool_decide; try congruence). cbn [andb fst snd].
  split; [done|]. split.
  - intros text mv Hacc.
    destruct (handle_move_accepted c env m r st game text mv Hr Hacc) as (rest & ? & ?).
    split; eauto.
  - intros Hno. by apply (handle_move_rejected c env m r st game).
Qed.

(** *** Joining a waiting game *)

Lemma lobby_remove_frame c a st :
  games (lobby_remove c a st) = games st ∧
  waiting_games (lobby_remove c a st) = waiting_games st ∧
  spectators_of (lobby_remove c a st) = spectators_of st ∧
  heap (lobby_remove c a st) = heap st ∧
  sent (lobby_remove c a st) = sent st.
Proof. unfold lobby_remove. by destruct (list_remove_first _ _). Qed.

(** A join that passes the password check. *)
Lemma join_game_success c addr env m k r st game :
  m_game_id m = Str k →
  Dict.get k (waiting_games st) = Some r →
  heap st !! r = Some game →
  is_private game = false ∨ provided_password m = password game →
  let st' := join_game c addr env m st in
  waiting_games st' = Dict.del k (waiting_games st) ∧
  games st' = <[c := r]> (games st) ∧
  spectators_of st' = spectators_of st ∧
  heap st' !! r = Some (set_last_move_time (now env) (seat_black c addr game)) ∧
  ∃ rest, sent st' = sent st
            ++ (match white_conn game with
                | Some w => [(w, MInfo ("Game #" +:+ game_id game +:+
                                        " started. You are White."))]
                | None => []
                end)
            ++ [(c, MInfo ("Game #" +:+ game_id game +:+ " started. You are Black."))]
            ++ rest.
Proof.
  intros Hk Hget Hr Hpw. unfold join_game. rewrite Hk. cbn [field_get].
  rewrite Hget. cbn [mbind option_bind]. rewrite Hr. cbn [fmap option_fmap option_map].
  replace (is_private game &&
           negb (bool_decide (field_get_default (m_password m) "" = password game)))
    with false.
  2: { symmetry. destruct Hpw as [->| Hpw]; [done|].
       unfold provided_password in Hpw. rewrite bool_decide_eq_true_2 by done.
       apply andb_false_r. }
  rewrite broadcast_lobby_log, !broadcast_log.
  match goal with
  | |- context [lobby_remove c addr ?X] =>
      destruct (lobby_remove_frame c addr X) as (Hg & Hw & Hs & Hh & Hl);
      remember (lobby_remove c addr X) as st1 eqn:Est1
  end.
  clear Est1. simpl in Hg, Hw, Hs, Hh, Hl.
  destruct (white_conn (seat_black c addr game)) as [w|] eqn:Hwc;
    simpl in Hwc; rewrite Hwc; simpl; rewrite ?Hg, ?Hw, ?Hs, ?Hh, ?Hl;
    rewrite !list_lookup_alter_eq, Hr; simpl;
    (repeat split; []); rewrite <- !app_assoc; simpl; eauto.
Qed.


(** *** The watchdog *)

(** The effect of the loop body on the state, in one equation. *)
Lemma check_game_eq ct t r st game :
  heap st !! r = Some game →
  check_game ct t r st =
    if decide (timed_out ct game)
    then log (mjoin (map (to_all (recipients game)) (timeout_messages game)))
             (update_game r (λ _, set_turn_time (negb (turn game)) t game) st)
    else st.
Proof.
  intros Hr. unfold check_game. rewrite Hr.
  destruct (decide (timed_out ct game)) as [[Ht [p Hp]]|Hno].
  - rewrite bool_decide_eq_true_2 by done. rewrite Hp.
    rewrite !broadcast_log. unfold update_game, log, set_heap. simpl.
    rewrite <- !app_assoc, app_nil_r. reflexivity.
  - case_bool_decide as Ht; [|done].
    destruct (players game !! turn game) as [p|] eqn:Hp; [|done].
    exfalso. apply Hno. split; [done|eauto].
Qed.

Lemma check_game_registries ct t r st :
  lobby (check_game ct t r st) = lobby st ∧
  games (check_game ct t r st) = games st ∧
  waiting_games (check_game ct t r st) = waiting_games st ∧
  spectators_of (check_game ct t r st) = spectators_of st.
Proof.
  destruct (heap st !! r) as [game|] eqn:Hr.
  - rewrite (check_game_eq ct t r st game Hr). by destruct (decide _).
  - unfold check_game. by rewrite Hr.
Qed.

Lemma check_game_heap ct t r st :
  heap (check_game ct t r st) = alter (timeout_step ct t) r (heap st).
Proof.
  destruct (heap st !! r) as [game|] eqn:Hr.
  - rewrite (check_game_eq ct t r st game Hr). unfold timeout_step.
    apply list_eq. intros i. destruct (decide (i = r)) as [->|Hne].
    + rewrite list_lookup_alter_eq, Hr. simpl.
      destruct (decide (timed_out ct game)); simpl; [|done].
      by rewrite list_lookup_alter_eq, Hr.
    + rewrite list_lookup_alter_ne by done.
      destruct (decide (timed_out ct game)); simpl; [|done].
      by rewrite list_lookup_alter_ne.
  - unfold check_game. rewrite Hr. symmetry.
    apply list_eq. intros i. destruct (decide (i = r)) as [->|Hne].
    + by rewrite list_lookup_alter_eq, Hr.
    + by rewrite list_lookup_alter_ne.
Qed.

Lemma check_games_registries ct t l st :
  let st' := foldl (λ st r, check_game ct t r st) st l in
  lobby st' = lobby st ∧ games st' = games st ∧
  waiting_games st' = waiting_games st ∧ spectators_of st' = spectators_of st.
Proof.
  revert st. induction l as [|r l IH]; intros st; simpl; [done|].
  destruct (IH (check_game ct t r st)) as (-> & -> & -> & ->).
  apply check_game_registries.
Qed.

(** Over a list of distinct references, each session is stepped once. *)
Lemma check_games_heap ct t l st r :
  NoDup l →
  heap (foldl (λ st r, check_game ct t r st) st l) !! r =
    if decide (r ∈ l) then timeout_step ct t <$> heap st !! r else heap st !! r.
Proof.
  revert st. induction l as [|r' l IH]; intros st Hnd; simpl; [done|].
  apply NoDup_cons in Hnd as [Hr' Hnd]. rewrite IH by done.
  rewrite check_game_heap.
  destruct (decide (r = r')) as [->|Hne].
  - rewrite decide_False by done. rewrite decide_True by set_solver.
    apply list_lookup_alter_eq.
  - rewrite list_lookup_alter_ne by done.
    destruct (decide (r ∈ l)).
    + by rewrite decide_True by set_solver.
    + by rewrite decide_False by set_solver.
Qed.

Lemma check_game_sent ct t r st :
  sent (check_game ct t r st) = sent st ++ scan_messages ct st r.
Proof.
  unfold scan_messages. destruct (heap st !! r) as [game|] eqn:Hr.
  - rewrite (check_game_eq ct t r st game Hr).
    destruct (decide _); simpl; [done|by rewrite app_nil_r].
  - unfold check_game. rewrite Hr. by rewrite app_nil_r.
Qed.

(** The log of a scan: the messages of each session, one session after the other. *)
Lemma check_games_sent ct t l st :
  NoDup l →
  sent (foldl (λ st r, check_game ct t r st) st l) =
    sent st ++ mjoin (map (scan_messages ct st) l).
Proof.
  revert st. induction l as [|r l IH]; intros st Hnd; simpl; [by rewrite app_nil_r|].
  apply NoDup_cons in Hnd as [Hr Hnd]. rewrite IH by done.
  rewrite check_game_sent, <- app_assoc. f_equal. f_equal. f_equal.
  apply map_ext_in. intros r' Hin. unfold scan_messages.
  rewrite check_game_heap, list_lookup_alter_ne; [done|].
  intros ->. apply Hr. by apply list_elem_of_In.
Qed.

Lemma scans_registries ticks st :
  lobby (scans ticks st) = lobby st ∧ games (scans ticks st) = games st ∧
  waiting_games (scans ticks st) = waiting_games st ∧
  spectators_of (scans ticks st) = spectators_of st.
Proof.
  revert st. induction ticks as [|[ct t] ticks IH]; intros st; [done|].
  unfold scans in *. simpl.
  destruct (IH (check_move_timers ct t st)) as (-> & -> & -> & ->).
  apply check_games_registries.
Qed.

(** C5 (as the code has it). For a session referenced from [games] whose
    last move is older than the limit and whose side to move has a
    connection, one scan of the watchdog leaves in its place the same object
    with the turn given to the other colour and the timer reset, the board
    being the same; the loop body broadcasts four messages, in this order:
    the notice naming the side that ran out of time, [timeout_sync] with the
    board, that side and the new side to move, the board, and the turn with
    status "active" and the time limit.  No scan, and no sequence of scans,
    changes the lobby, [games], [waiting_games] or the spectator bindings:
    a timeout never ends the game. *)
Theorem timeout_passes_turn ct t r st game :
  r ∈ active_refs st →
  heap st !! r = Some game →
  timed_out ct game →
  (∃ game', heap (check_move_timers ct t st) !! r = Some game' ∧
            game' = set_turn_time (negb (turn game)) t game ∧
            board game' = board game ∧ turn game' = negb (turn game) ∧
            last_move_time game' = t) ∧
  sent (check_game ct t r st) =
    sent st ++ mjoin (map (to_all (recipients game)) (timeout_messages game)) ∧
  (∃ before after,
     sent (check_move_timers ct t st) =
       sent st ++ before
               ++ mjoin (map (to_all (recipients game)) (timeout_messages game))
               ++ after) ∧
  List.length (timeout_messages game) = 4%nat ∧
  (∀ ticks, lobby (scans ticks st) = lobby st ∧ games (scans ticks st) = games st ∧
            waiting_games (scans ticks st) = waiting_games st ∧
            spectators_of (scans ticks st) = spectators_of st).
Proof.
  intros Hact Hr Hto. split; [|split; [|split; [|split]]].
  - eexists. split; [|by repeat split].
    unfold check_move_timers. rewrite check_games_heap by apply NoDup_elements.
    rewrite decide_True by done. rewrite Hr. simpl. unfold timeout_step.
    by rewrite decide_True.
  - rewrite (check_game_eq ct t r st game Hr). by rewrite decide_True.
  - unfold check_move_timers. rewrite check_games_sent by apply NoDup_elements.
    apply list_elem_of_split in Hact as (l1 & l2 & ->).
    exists (mjoin (map (scan_messages ct st) l1)),
           (mjoin (map (scan_messages ct st) l2)).
    rewrite map_app, join_app. simpl. unfold scan_messages at 2.
    rewrite Hr, decide_True by done. reflexivity.
  - reflexivity.
  - intros ticks. apply scans_registries.
Qed.

(** *** Turn colour against the engine's side to move *)

(** An accepted move keeps the two in step, as [push] flips the engine's side. *)
Lemma accepted_move_keeps_turn c env m r st game text mv :
  push_flips_turn →
  heap st !! r = Some game →
  move_acceptable game c m text mv →
  turn game = board_turn (board game) →
  ∃ game', heap (handle_move c env m r st) !! r = Some game' ∧
           turn game' = board_turn (board game').
Proof.
  intros Hpush Hr Hacc Hsync.
  destruct (handle_move_accepted c env m r st game text mv Hr Hacc) as (rest & -> & _).
  eexists. split; [done|]. simpl. by rewrite Hpush, Hsync.
Qed.

(** A timeout does not: the turn colour flips and the board stays. *)
Lemma timeout_breaks_turn ct t r st game :
  r ∈ active_refs st →
  heap st !! r = Some game →
  timed_out ct game →
  turn game = board_turn (board game) →
  ∃ game', heap (check_move_timers ct t st) !! r = Some game' ∧
           turn game' ≠ board_turn (board game').
Proof.
  intros Hact Hr Hto Hsync. eexists. split.
  - unfold check_move_timers. rewrite check_games_heap by apply NoDup_elements.
    rewrite decide_True by done. rewrite Hr. simpl. unfold timeout_step.
    by rewrite decide_True.
  - simpl. rewrite Hsync. by destruct (board_turn (board game)).
Qed.

(** *** Where a session is registered *)

Lemma create_game_registers c addr env m st :
  let st' := create_game c addr env m st in
  let r := List.length (heap st) in
  waiting_games st' = Dict.set (fresh_id env) r (waiting_games st) ∧
  games st' = <[c := r]> (games st) ∧
  spectators_of st' = spectators_of st ∧
  heap st' = heap st ++ [GameSession_init c c addr (field_get (m_password m))
                           (fresh_id env) (now env)].
Proof.
  unfold create_game. rewrite broadcast_lobby_log. cbn [game_id GameSession_init].
  match goal with
  | |- context [lobby_remove c addr ?X] =>
      destruct (lobby_remove_frame c addr X) as (Hg & Hw & Hs & Hh & Hl);
      remember (lobby_remove c addr X) as st1 eqn:Est1
  end.
  clear Est1. simpl in *. by rewrite Hg, Hw, Hs, Hh.
Qed.

Lemma ended_cleanup_registries game st :
  games (ended_cleanup game st) =
    (match black_conn game with Some b => delete b | None => id end)
      ((match white_conn game with Some w => delete w | None => id end) (games st)) ∧
  waiting_games (ended_cleanup game st) = waiting_games st ∧
  spectators_of (ended_cleanup game st) = spectators_of st.
Proof.
  unfold ended_cleanup. rewrite broadcast_lobby_log.
  destruct (black_conn game), (black_addr game), (white_conn game),
    (creator_address game); done.
Qed.

(** C7 (as the code has it). [create_game] enters the new session in
    [waiting_games] under its id and, at the same time, in [games] under its
    creator: a waiting session is reachable through [games].  A join that
    passes the password check takes the session out of [waiting_games] and
    enters the joiner in [games], keeping the creator's entry, so that the
    session is then referenced from [games] by both seats.  The clean-up after
    a game-ending move removes the [games] entries of both seats and leaves
    [waiting_games] as it is. *)
Theorem session_registration c addr env m st :
  (let st' := create_game c addr env m st in
   Dict.get (fresh_id env) (waiting_games st') = Some (List.length (heap st)) ∧
   games st' !! c = Some (List.length (heap st)) ∧
   heap st' !! List.length (heap st) =
     Some (GameSession_init c c addr (field_get (m_password m))
             (fresh_id env) (now env))) ∧
  (∀ k r game w,
     Dict.wf (waiting_games st) →
     m_game_id m = Str k →
     Dict.get k (waiting_games st) = Some r →
     heap st !! r = Some game →
     white_conn game = Some w →
     games st !! w = Some r →
     is_private game = false ∨ provided_password m = password game →
     let st' := join_game c addr env m st in
     Dict.get k (waiting_games st') = None ∧
     games st' !! w = Some r ∧ games st' !! c = Some r) ∧
  (∀ game w b,
     white_conn game = Some w →
     black_conn game = Some b →
     let st' := ended_cleanup game st in
     games st' !! w = None ∧ games st' !! b = None ∧
     waiting_games st' = waiting_games st).
Proof.
  split; [|split].
  - destruct (create_game_registers c addr env m st) as (Hw & Hg & _ & Hh).
    cbv zeta in *. rewrite Hw, Hg, Hh. split; [apply get_set|].
    split; [apply lookup_insert_eq|].
    rewrite lookup_app_r by done. by rewrite Nat.sub_diag.
  - intros k r game w Hwf Hk Hget Hr Hw Hgw Hpw.
    destruct (join_game_success c addr env m k r st game Hk Hget Hr Hpw)
      as (Hwait & Hgames & _).
    cbv zeta. rewrite Hwait, Hgames. split; [by apply get_del|].
    split; [|apply lookup_insert_eq].
    destruct (decide (c = w)) as [->|Hne];
      [apply lookup_insert_eq|by rewrite lookup_insert_ne].
  - intros game w b Hw Hb.
    destruct (ended_cleanup_registries game st) as (Hg & Hwait & _).
    cbv zeta. rewrite Hg, Hwait, Hw, Hb. split; [|split; [|done]].
    + destruct (decide (b = w)) as [->|Hne]; [apply lookup_delete_eq|].
      rewrite lookup_delete_ne by done. apply lookup_delete_eq.
    + apply lookup_delete_eq.
Qed.

(** *** The registries in every reachable state *)

Lemma same_seats_refl g : same_seats g g.
Proof. by repeat split. Qed.

Lemma keeps_seats_refl h : keeps_seats h h.
Proof. intros r g Hr. exists g. split; [done|apply same_seats_refl]. Qed.

Lemma keeps_seats_trans h1 h2 h3 :
  keeps_seats h1 h2 → keeps_seats h2 h3 → keeps_seats h1 h3.
Proof.
  intros H12 H23 r g Hr.
  destruct (H12 r g Hr) as (g2 & Hr2 & ? & ? & ?).
  destruct (H23 r g2 Hr2) as (g3 & Hr3 & ? & ? & ?).
  exists g3. split; [done|]. repeat split; congruence.
Qed.

Lemma keeps_seats_alter f r h :
  (∀ g, same_seats g (f g)) → keeps_seats h (alter f r h).
Proof.
  intros Hf i g Hi. destruct (decide (i = r)) as [->|Hne].
  - exists (f g). rewrite list_lookup_alter_eq, Hi. split; [done|apply Hf].
  - exists g. rewrite list_lookup_alter_ne by done. split; [done|apply same_seats_refl].
Qed.

Lemma shrinks_refl st : shrinks st st.
Proof. split; [done|]. split; [done|apply keeps_seats_refl]. Qed.

Lemma shrinks_trans st1 st2 st3 :
  shrinks st1 st2 → shrinks st2 st3 → shrinks st1 st3.
Proof.
  intros (Hw12 & Hg12 & Hh12) (Hw23 & Hg23 & Hh23). split; [|split].
  - intros Hwf. destruct (Hw12 Hwf) as [Hwf2 H2]. destruct (Hw23 Hwf2) as [Hwf3 H3].
    split; [done|]. eauto.
  - eauto.
  - by eapply keeps_seats_trans.
Qed.

Lemma shrinks_log l st : shrinks st (log l st).
Proof. split; [done|]. split; [done|apply keeps_seats_refl]. Qed.

Lemma shrinks_send c m st : shrinks st (send c m st).
Proof. apply shrinks_log. Qed.

Lemma shrinks_lobby_append c a st : shrinks st (lobby_append c a st).
Proof. split; [done|]. split; [done|apply keeps_seats_refl]. Qed.

Lemma shrinks_broadcast g m st : shrinks st (broadcast g m st).
Proof. rewrite broadcast_log. apply shrinks_log. Qed.

Lemma shrinks_send_all cs m st : shrinks st (send_all cs m st).
Proof. rewrite send_all_log. apply shrinks_log. Qed.

Lemma shrinks_broadcast_lobby st : shrinks st (broadcast_lobby st).
Proof. rewrite broadcast_lobby_log. apply shrinks_log. Qed.

Lemma shrinks_set_lobby l st : shrinks st (set_lobby l st).
Proof. split; [done|]. split; [done|apply keeps_seats_refl]. Qed.

Lemma shrinks_lobby_remove c a st : shrinks st (lobby_remove c a st).
Proof.
  unfold lobby_remove.
  destruct (list_remove_first _ _); [apply shrinks_set_lobby|apply shrinks_refl].
Qed.

Lemma shrinks_set_spectators_of sp st : shrinks st (set_spectators_of sp st).
Proof. split; [done|]. split; [done|apply keeps_seats_refl]. Qed.

Lemma shrinks_update_game r f st :
  (∀ g, same_seats g (f g)) → shrinks st (update_game r f st).
Proof. intros Hf. split; [done|]. split; [done|]. by apply keeps_seats_alter. Qed.

Lemma shrinks_overwrite r g g' st :
  heap st !! r = Some g → same_seats g g' →
  shrinks st (update_game r (λ _, g') st).
Proof.
  intros Hr Hsame. split; [done|]. split; [done|]. intros i gi Hi. simpl.
  destruct (decide (i = r)) as [->|Hne].
  - exists g'. rewrite list_lookup_alter_eq, Hi. split; [done|]. congruence.
  - exists gi. rewrite list_lookup_alter_ne by done. split; [done|apply same_seats_refl].
Qed.

Lemma shrinks_delete_game c st : shrinks st (set_games (delete c (games st)) st).
Proof.
  split; [done|]. split; [|apply keeps_seats_refl].
  intros c' r. simpl. rewrite lookup_delete. by case_decide.
Qed.

Lemma shrinks_del_game_of o st : shrinks st (del_game_of o st).
Proof. destruct o; [apply shrinks_delete_game|apply shrinks_refl]. Qed.

Lemma shrinks_del_waiting k st :
  shrinks st (set_waiting_games (Dict.del k (waiting_games st)) st).
Proof.
  split; [|split; [done|apply keeps_seats_refl]].
  intros Hwf. simpl. split; [by apply wf_del|].
  intros k' r Hget. destruct (decide (k' = k)) as [->|Hne].
  - by rewrite get_del in Hget.
  - by rewrite get_del_ne in Hget.
Qed.

Local Ltac shrinks_op :=
  first [ apply shrinks_log | apply shrinks_send
        | apply shrinks_lobby_append | apply shrinks_broadcast
        | apply shrinks_send_all | apply shrinks_broadcast_lobby
        | apply shrinks_set_lobby | apply shrinks_lobby_remove
        | apply shrinks_set_spectators_of | apply shrinks_delete_game
        | apply shrinks_del_game_of | apply shrinks_del_waiting
        | (apply shrinks_update_game; intros ?; by repeat split) ].

Local Ltac shrinks_step := first [ apply shrinks_refl | shrinks_op ].

(** Chains of the steps above, innermost state last. *)
Local Ltac shrinks_chain :=
  repeat first [ shrinks_step | (eapply shrinks_trans; [|shrinks_op]) ].

Lemma shrinks_add_spectator r c st : shrinks st (add_spectator r c st).
Proof.
  unfold add_spectator. destruct (heap st !! r); [|apply shrinks_refl].
  shrinks_chain.
Qed.

Lemma shrinks_first_message c addr rcv st :
  shrinks st (first_message c addr rcv st).1.1.
Proof.
  unfold first_message. destruct rcv as [| |m]; simpl; try apply shrinks_refl.
  repeat case_decide; simpl; try apply shrinks_refl.
  - shrinks_chain.
  - destruct (find_game_by_id _ _); simpl.
    + eapply shrinks_trans; [apply shrinks_add_spectator|shrinks_step].
    + shrinks_step.
  - shrinks_step.
Qed.

Lemma shrinks_next_turn r t st : shrinks st (next_turn r t st).1.
Proof.
  destruct (heap st !! r) as [g|] eqn:Hr.
  - destruct (next_turn_spec r t st g Hr) as (l & ended & ->). simpl.
    eapply shrinks_trans; [|apply shrinks_log].
    by apply (shrinks_overwrite r g).
  - unfold next_turn. rewrite Hr. apply shrinks_refl.
Qed.

Lemma shrinks_ended_cleanup game st : shrinks st (ended_cleanup game st).
Proof.
  unfold ended_cleanup.
  destruct (white_conn game), (creator_address game), (black_conn game),
    (black_addr game); shrinks_chain.
Qed.

Lemma shrinks_handle_move c env m r st : shrinks st (handle_move c env m r st).
Proof.
  unfold handle_move. destruct (heap st !! r) as [game|] eqn:Hr; [|apply shrinks_refl].
  destruct (negb _); [shrinks_step|].
  destruct (m_move m) as [| |text]; try shrinks_step.
  destruct (from_uci text) as [mv|]; [|shrinks_step].
  case_bool_decide; [|shrinks_step].
  set (g1 := set_board _ game). set (st1 := broadcast g1 _ _).
  assert (H1 : shrinks st st1).
  { subst st1. eapply shrinks_trans; [|apply shrinks_broadcast].
    by apply (shrinks_overwrite r game). }
  pose proof (shrinks_next_turn r (now env) st1) as H2.
  destruct (next_turn r (now env) st1) as [st2 ended]. simpl in H2.
  destruct ended.
  - eapply shrinks_trans; [|apply shrinks_ended_cleanup]. by eapply shrinks_trans.
  - by eapply shrinks_trans.
Qed.

Lemma shrinks_quit_game c addr r st : shrinks st (quit_game c addr r st).
Proof.
  unfold quit_game. destruct (heap st !! r) as [game|]; [|apply shrinks_refl].
  destruct (opponent game c) as [o|];
    [destruct (opponent_address game (Some o))|]; shrinks_chain.
Qed.

Lemma shrinks_drop_spectators specs st : shrinks st (drop_spectators specs st).
Proof.
  revert st. induction specs as [|spec specs IH]; intros st; [apply shrinks_refl|].
  unfold drop_spectators in *. simpl. eapply shrinks_trans; [|apply IH].
  shrinks_chain.
Qed.

Lemma shrinks_disconnect c addr role st : shrinks st (disconnect c addr role st).
Proof.
  unfold disconnect. destruct role; [apply shrinks_refl| |shrinks_step].
  set (st1 := if in_lobby c addr st then _ else st).
  assert (H1 : shrinks st st1) by (subst st1; destruct (in_lobby _ _ _); shrinks_chain).
  set (st2 := match game_to_remove c st1 with Some _ => _ | None => st1 end).
  assert (H2 : shrinks st st2).
  { subst st2. destruct (game_to_remove c st1) as [gid|]; [|done].
    destruct (str_truthy _); [|done].
    eapply shrinks_trans; [exact H1|]. shrinks_chain. }
  destruct (games st2 !! c ≫= _) as [game|]; [|done].
  eapply shrinks_trans; [exact H2|].
  eapply shrinks_trans; [|apply shrinks_broadcast_lobby].
  eapply shrinks_trans; [|apply shrinks_drop_spectators].
  destruct (opponent game c) as [o|];
    [destruct (opponent_address game (Some o))|]; shrinks_chain.
Qed.

Lemma shrinks_check_game ct t r st : shrinks st (check_game ct t r st).
Proof.
  destruct (heap st !! r) as [game|] eqn:Hr.
  - rewrite (check_game_eq ct t r st game Hr).
    destruct (decide _); [|apply shrinks_refl].
    eapply shrinks_trans; [|apply shrinks_log].
    by apply (shrinks_overwrite r game).
  - unfold check_game. rewrite Hr. apply shrinks_refl.
Qed.

Lemma shrinks_check_move_timers ct t st : shrinks st (check_move_timers ct t st).
Proof.
  unfold check_move_timers. generalize (active_refs st). intros l. revert st.
  induction l as [|r l IH]; intros st; [apply shrinks_refl|]. simpl.
  eapply shrinks_trans; [apply shrinks_check_game|apply IH].
Qed.

(** A change that shrinks keeps the invariant. *)
Lemma registry_invariant_shrinks st st' :
  shrinks st st' → registry_invariant st → registry_invariant st'.
Proof.
  intros (Hw & Hg & Hh) (Hwf & Hwait & Hgames).
  destruct (Hw Hwf) as [Hwf' Hsub]. split; [done|]. split.
  - intros k r Hget. destruct (Hwait k r (Hsub k r Hget)) as (g & Hr & Hid & Hwc & Hbc).
    destruct (Hh r g Hr) as (g' & Hr' & Hw' & Hb' & Hid').
    exists g'. split; [done|]. rewrite Hw', Hb', Hid'. done.
  - intros c r Hc. destruct (Hgames c r (Hg c r Hc)) as (g & Hr & Hseat).
    destruct (Hh r g Hr) as (g' & Hr' & Hw' & Hb' & _).
    exists g'. split; [done|]. by rewrite Hw', Hb'.
Qed.

Lemma registry_invariant_create_game c addr env m st :
  registry_invariant st → registry_invariant (create_game c addr env m st).
Proof.
  intros (Hwf & Hwait & Hgames).
  destruct (create_game_registers c addr env m st) as (Hw & Hg & _ & Hh).
  cbv zeta in *. unfold registry_invariant. rewrite Hw, Hg, Hh.
  set (gid := fresh_id env). set (r0 := List.length (heap st)).
  assert (Hold : ∀ r g, heap st !! r = Some g → (heap st ++ [GameSession_init c c addr
            (field_get (m_password m)) gid (now env)]) !! r = Some g).
  { intros r g Hr. by apply lookup_app_l_Some. }
  assert (Hnew : (heap st ++ [GameSession_init c c addr
            (field_get (m_password m)) gid (now env)]) !! r0
            = Some (GameSession_init c c addr (field_get (m_password m)) gid (now env))).
  { subst r0. rewrite lookup_app_r by done. by rewrite Nat.sub_diag. }
  split; [by apply wf_set|]. split.
  - intros k r Hget. destruct (decide (k = gid)) as [->|Hne].
    + rewrite get_set in Hget. injection Hget as <-.
      eexists. split; [exact Hnew|]. simpl. eauto.
    + rewrite get_set_ne in Hget by done.
      destruct (Hwait k r Hget) as (g & Hr & ?). exists g. split; [by apply Hold|done].
  - intros c' r Hc'. destruct (decide (c' = c)) as [->|Hne].
    + rewrite lookup_insert_eq in Hc'. injection Hc' as <-.
      eexists. split; [exact Hnew|]. simpl. by left.
    + rewrite lookup_insert_ne in Hc' by done.
      destruct (Hgames c' r Hc') as (g & Hr & ?). exists g. split; [by apply Hold|done].
Qed.

Lemma join_game_heap c addr env m k r st game :
  m_game_id m = Str k →
  Dict.get k (waiting_games st) = Some r →
  heap st !! r = Some game →
  is_private game = false ∨ provided_password m = password game →
  heap (join_game c addr env m st) =
    alter (set_last_move_time (now env)) r (alter (seat_black c addr) r (heap st)).
Proof.
  intros Hk Hget Hr Hpw. unfold join_game. rewrite Hk. cbn [field_get].
  rewrite Hget. cbn [mbind option_bind]. rewrite Hr. cbn [fmap option_fmap option_map].
  replace (is_private game &&
           negb (bool_decide (field_get_default (m_password m) "" = password game)))
    with false.
  2: { symmetry. destruct Hpw as [->| Hpw]; [done|].
       unfold provided_password in Hpw. rewrite bool_decide_eq_true_2 by done.
       apply andb_false_r. }
  rewrite broadcast_lobby_log, !broadcast_log.
  match goal with
  | |- context [lobby_remove c addr ?X] =>
      destruct (lobby_remove_frame c addr X) as (_ & _ & _ & Hh & _);
      remember (lobby_remove c addr X) as st1 eqn:Est1
  end.
  clear Est1. simpl in Hh.
  destruct (white_conn (seat_black c addr game)); simpl; by rewrite Hh.
Qed.

(** What [join_game] does when it does not seat the joiner. *)
Lemma join_game_refused c addr env m st :
  (∀ k r game,
     m_game_id m = Str k → Dict.get k (waiting_games st) = Some r →
     heap st !! r = Some game →
     ¬ (is_private game = false ∨ provided_password m = password game)) →
  ∃ err, join_game c addr env m st = send c (MError err) st.
Proof.
  intros Hno. unfold join_game.
  destruct (m_game_id m) as [| |k] eqn:Hk; cbn [field_get]; [eauto..|].
  destruct (Dict.get k (waiting_games st)) as [r|] eqn:Hget; cbn [mbind option_bind];
    [|eauto].
  destruct (heap st !! r) as [game|] eqn:Hr; cbn [fmap option_fmap option_map];
    [|eauto].
  specialize (Hno k r game eq_refl Hget Hr).
  destruct (is_private game) eqn:Hpriv; [|by destruct Hno; left].
  case_bool_decide as Hpw; [by destruct Hno; right|]. simpl. eauto.
Qed.

Lemma registry_invariant_join_game c addr env m st :
  registry_invariant st → registry_invariant (join_game c addr env m st).
Proof.
  intros Hinv.
  destruct (m_game_id m) as [| |k] eqn:Hk.
  1,2: destruct (join_game_refused c addr env m st) as [err ->]; [congruence|];
       by eapply registry_invariant_shrinks; [apply shrinks_send|].
  destruct (Dict.get k (waiting_games st)) as [r|] eqn:Hget.
  2: { destruct (join_game_refused c addr env m st) as [err ->]; [congruence|].
       by eapply registry_invariant_shrinks; [apply shrinks_send|]. }
  destruct Hinv as (Hwf & Hwait & Hgames).
  destruct (Hwait k r Hget) as (game & Hr & Hid & Hwhite & Hblack).
  destruct (decide (is_private game = false ∨ provided_password m = password game))
    as [Hpw|Hpw].
  2: { destruct (join_game_refused c addr env m st) as [err ->]; [congruence|].
       by eapply registry_invariant_shrinks; [apply shrinks_send|]. }
  destruct (join_game_success c addr env m k r st game Hk Hget Hr Hpw)
    as (Hw' & Hg' & _ & Hr' & _).
  pose proof (join_game_heap c addr env m k r st game Hk Hget Hr Hpw) as Hh'.
  cbv zeta in *. unfold registry_invariant. rewrite Hw', Hg'.
  assert (Hother : ∀ r', r' ≠ r →
            heap (join_game c addr env m st) !! r' = heap st !! r').
  { intros r' Hne. rewrite Hh'. by rewrite !list_lookup_alter_ne. }
  split; [by apply wf_del|]. split.
  - intros k' r' Hget'. destruct (decide (k' = k)) as [->|Hne].
    { by rewrite get_del in Hget'. }
    rewrite get_del_ne in Hget' by done.
    destruct (Hwait k' r' Hget') as (g' & Hg & Hid' & ?).
    exists g'. split; [|done]. rewrite Hother; [done|].
    intros ->. congruence.
  - intros c' r' Hc'. destruct (decide (r' = r)) as [->|Hne].
    + eexists. split; [exact Hr'|]. simpl.
      destruct (decide (c' = c)) as [->|Hnec]; [by right|].
      rewrite lookup_insert_ne in Hc' by done.
      destruct (Hgames c' r Hc') as (g & Hg & [Hs|Hs]); left; congruence.
    + rewrite lookup_insert_ne in Hc' by (intros ->; rewrite lookup_insert_eq in Hc'; congruence).
      destruct (Hgames c' r' Hc') as (g & Hg & Hs).
      exists g. split; [by rewrite Hother|done].
Qed.

Lemma registry_invariant_handle_message c addr role env rcv st :
  registry_invariant st →
  registry_invariant (handle_message c addr role env rcv st).1.
Proof.
  intros Hinv. unfold handle_message. destruct rcv as [| |m]; [done..|].
  repeat (destruct (_ && _); simpl; [first [ by apply registry_invariant_create_game
                                           | by apply registry_invariant_join_game
                                           | by eapply registry_invariant_shrinks;
                                               [apply shrinks_broadcast_lobby|] ]|]).
  destruct (bool_decide (role = Player)), (games st !! c) as [r|]; simpl.
  - destruct (m_type m); try done;
      repeat (case_bool_decide; simpl; try done);
      try (by eapply registry_invariant_shrinks; [apply shrinks_handle_move|]);
      try (by eapply registry_invariant_shrinks; [apply shrinks_quit_game|]);
      destruct (m_msg m), (heap st !! r); simpl; try done;
      by eapply registry_invariant_shrinks; [apply shrinks_broadcast|].
  - case_bool_decide; [|done].
    destruct (spectators_of st !! c ≫= _) as [game|]; [|done].
    destruct (m_type m); try done; case_bool_decide; try done;
      destruct (m_msg m); simpl; try done;
      by eapply registry_invariant_shrinks; [apply shrinks_broadcast|].
  - case_bool_decide; [|done].
    destruct (spectators_of st !! c ≫= _) as [game|]; [|done].
    destruct (m_type m); try done; case_bool_decide; try done;
      destruct (m_msg m); simpl; try done;
      by eapply registry_invariant_shrinks; [apply shrinks_broadcast|].
  - case_bool_decide; [|done].
    destruct (spectators_of st !! c ≫= _) as [game|]; [|done].
    destruct (m_type m); try done; case_bool_decide; try done;
      destruct (m_msg m); simpl; try done;
      by eapply registry_invariant_shrinks; [apply shrinks_broadcast|].
Qed.

Lemma registry_invariant_step w ev :
  registry_invariant (globals w) → registry_invariant (globals (step w ev)).
Proof.
  intros Hinv. destruct ev as [c addr rcv|c env rcv|ct t]; simpl.
  - destruct (handlers w !! c); [done|].
    pose proof (shrinks_first_message c addr rcv (globals w)) as Hs.
    destruct (first_message c addr rcv (globals w)) as [[st role] go]. simpl in Hs.
    destruct go; simpl.
    + by eapply registry_invariant_shrinks.
    + eapply registry_invariant_shrinks; [apply shrinks_disconnect|].
      by eapply registry_invariant_shrinks.
  - destruct (handlers w !! c) as [[addr role]|]; [|done].
    pose proof (registry_invariant_handle_message c addr role env rcv (globals w) Hinv)
      as Hm.
    destruct (handle_message c addr role env rcv (globals w)) as [st go]. simpl in Hm.
    destruct go; simpl; [done|].
    by eapply registry_invariant_shrinks; [apply shrinks_disconnect|].
  - by eapply registry_invariant_shrinks; [apply shrinks_check_move_timers|].
Qed.

(** In every state the server can reach: [waiting_games] has no key twice,
    every waiting session has its white seat filled and its black seat
    empty, and every key of [games] is seated in its session. *)
Lemma registry_invariant_reachable w :
  reachable w → registry_invariant (globals w).
Proof.
  intros [evs ->]. unfold run.
  assert (Hgen : ∀ w0, registry_invariant (globals w0) →
            registry_invariant (globals (foldl step w0 evs))).
  { induction evs as [|ev evs IH]; intros w0 H0; [done|].
    simpl. apply IH. by apply registry_invariant_step. }
  apply Hgen. split; [apply NoDup_nil_2|]. split.
  - intros k r H. discriminate.
  - intros c r H. simpl in H. by rewrite lookup_empty in H.
Qed.

(** *** Requests in the states the server can reach *)

(** C2. In every state the server can reach, a connection with an entry in
    [games] is seated in the session the entry maps to, and its move request
    is taken if and only if it is the sender's turn and the rules engine
    lists the parsed move as legal for the current board: under that
    condition the board is pushed, the turn flipped and the timer reset, and
    the move is broadcast; in every other case (out of turn, illegal move,
    malformed text) the whole state, so board, turn and time stamp, stays as
    it was and the only effect is one error message to the sender.  The
    handler goes on reading in both cases. *)
Theorem move_accepted_iff_turn_and_legal w c addr env m r :
  reachable w →
  games (globals w) !! c = Some r →
  m_type m = Str "move" →
  ∃ game,
    heap (globals w) !! r = Some game ∧
    (white_conn game = Some c ∨ black_conn game = Some c) ∧
    let res := handle_message c addr Player env (Decoded m) (globals w) in
    snd res = true ∧
    (∀ text mv, move_acceptable game c m text mv →
       move_taken game text mv (now env) r (globals w) (fst res)) ∧
    ((¬ ∃ text mv, move_acceptable game c m text mv) →
       move_refused c (globals w) (fst res)).
Proof.
  intros Hreach Hc Hty.
  destruct (registry_invariant_reachable w Hreach) as (_ & _ & Hgames).
  destruct (Hgames c r Hc) as (game & Hr & Hseat).
  exists game. split; [done|]. split; [done|].
  by apply move_request_outcome.
Qed.


End ServerFacts.

(** ** Facts about the client's receive loop *)

Section ReceiverFacts.
Import Receiver.
Context {M : Type} (loads : list ascii → Loads M).

(** *** The scan for the end of a message *)

Lemma scan_bound buf i d s e :
  scan buf i d s e = 0%nat ∨
  (i < scan buf i d s e ∧ scan buf i d s e ≤ i + List.length buf)%nat.
Proof.
  revert i d s e. induction buf as [|ch buf IH]; intros i d s e; simpl; [by left|].
  assert (Hstep : ∀ d' s' e', scan buf (S i) d' s' e' = 0%nat ∨
            (i < scan buf (S i) d' s' e' ∧
             scan buf (S i) d' s' e' ≤ i + S (List.length buf))%nat).
  { intros d' s' e'. destruct (IH (S i) d' s' e') as [->|[? ?]]; [by left|right; lia]. }
  repeat (case_match; try apply Hstep). right. lia.
Qed.

(** A message end found in a buffer is found again when more text follows. *)
Lemma scan_app buf more i d s e :
  scan buf i d s e ≠ 0%nat →
  scan (buf ++ more) i d s e = scan buf i d s e.
Proof.
  revert i d s e. induction buf as [|ch buf IH]; intros i d s e; simpl; [done|].
  repeat (case_match; try apply IH). done.
Qed.

Lemma find_msg_end_bound buf :
  (find_msg_end buf ≤ List.length buf)%nat.
Proof. unfold find_msg_end. destruct (scan_bound buf 0 0 false false); lia. Qed.

(** A buffer that is one message up to its last character has no message
    end in any shorter prefix. *)
Lemma find_msg_end_prefix buf more :
  more ≠ [] →
  find_msg_end (buf ++ more) = List.length (buf ++ more) →
  find_msg_end buf = 0%nat.
Proof.
  unfold find_msg_end. intros Hmore Hend.
  destruct (decide (scan buf 0 0 false false = 0%nat)) as [|Hne]; [done|].
  rewrite (scan_app buf more) in Hend by done.
  pose proof (find_msg_end_bound buf) as Hb. unfold find_msg_end in Hb.
  rewrite length_app in Hend. destruct more; [done|]. simpl in Hend. lia.
Qed.

(** *** The loop over the buffer *)



(** One round of the loop on a buffer that is not empty. *)
Lemma drain_step fuel buf :
  buf ≠ [] →
  drain loads (S fuel) buf =
    if (find_msg_end buf =? 0)%nat then Some ([], buf, true)
    else
      match loads (take (find_msg_end buf) buf) with
      | Loaded msg =>
          '(msgs, rest, ok) ← drain loads fuel (strip (drop (find_msg_end buf) buf));
          Some (msg :: msgs, rest, ok)
      | JSONDecodeError =>
          Some ([], if (1000 <? List.length (strip (drop (find_msg_end buf) buf)))%nat
                    then [] else strip (drop (find_msg_end buf) buf), true)
      | OtherError => Some ([], strip (drop (find_msg_end buf) buf), false)
      end.
Proof. by destruct buf. Qed.



(** One whole message in the buffer is handed on and the buffer is empty. *)
Lemma drain_one_message fuel buf v :
  buf ≠ [] →
  find_msg_end buf = List.length buf →
  loads buf = Loaded v →
  drain loads (S fuel) buf = Some ([v], [], true).
Proof.
  intros Hne Hend Hv. rewrite drain_step by done. rewrite Hend.
  destruct (Nat.eqb_spec (List.length buf) 0) as [H0|_];
    [by destruct buf|].
  rewrite firstn_all, drop_all. change (strip []) with (@nil ascii).
  rewrite Hv. by destruct fuel.
Qed.

(** A buffer without a message end is kept as it is. *)
Lemma drain_incomplete fuel buf :
  find_msg_end buf = 0%nat →
  drain loads (S fuel) buf = Some ([], buf, true).
Proof.
  intros Hend. destruct buf; [done|]. rewrite drain_step by done. by rewrite Hend.
Qed.

(** Two whole messages that arrive in one read are both handed on, in order. *)
Lemma two_messages_in_one_read fuel s1 s2 v1 v2 :
  s1 ≠ [] → s2 ≠ [] →
  find_msg_end s1 = List.length s1 →
  find_msg_end s2 = List.length s2 →
  strip s2 = s2 →
  loads s1 = Loaded v1 → loads s2 = Loaded v2 →
  drain loads (S (S fuel)) (s1 ++ s2) = Some ([v1; v2], [], true).
Proof.
  intros Hs1 Hs2 He1 He2 Hstrip Hv1 Hv2.
  assert (Hend : find_msg_end (s1 ++ s2) = List.length s1).
  { unfold find_msg_end in *. rewrite scan_app; [done|]. rewrite He1. by destruct s1. }
  rewrite drain_step by (by destruct s1). rewrite Hend.
  destruct (Nat.eqb_spec (List.length s1) 0) as [H0|_]; [by destruct s1|].
  rewrite take_app_length, drop_app_length, Hstrip, Hv1.
  by rewrite (drain_one_message fuel s2 v2).
Qed.

(** A read of text on which the loop ends normally. *)
Lemma receive_data text st msgs rest :
  running st = true → connected st = true → text ≠ [] →
  drain loads (List.length (buffer st ++ text)) (buffer st ++ text)
    = Some (msgs, rest, true) →
  receive loads (Data text) st =
    {| buffer := rest; connected := true; running := true;
       delivered := delivered st ++ msgs |}.
Proof.
  intros Hrun Hcon Hne Hd. unfold receive. rewrite Hrun, Hcon. cbn [andb negb].
  destruct text; [done|]. cbv zeta. by rewrite Hd.
Qed.

(** X17. One message that arrives in pieces is handed on once, whole, when its
    last piece is in: the pieces before it only fill the buffer. *)
Lemma one_message_in_pieces chunks st s v :
  running st = true → connected st = true →
  Forall (λ chunk, chunk ≠ []) chunks →
  chunks ≠ [] →
  buffer st ++ mjoin chunks = s →
  find_msg_end s = List.length s →
  loads s = Loaded v →
  receive_all loads (map Data chunks) st =
    {| buffer := []; connected := true; running := true;
       delivered := delivered st ++ [v] |}.
Proof.
  intros Hrun Hcon Hall. revert st Hrun Hcon.
  induction Hall as [|chunk chunks Hchunk Hall IH]; intros st Hrun Hcon Hne Hs Hend Hv;
    [done|].
  change (receive_all loads (map Data (chunk :: chunks)) st)
    with (receive_all loads (map Data chunks) (receive loads (Data chunk) st)).
  assert (Hbuf : buffer st ++ chunk ≠ []) by (destruct (buffer st), chunk; done).
  assert (Hrecv := λ msgs rest, receive_data chunk st msgs rest Hrun Hcon Hchunk).
  destruct (List.length (buffer st ++ chunk)) as [|fuel] eqn:Hlen;
    [by destruct (buffer st ++ chunk)|].
  destruct chunks as [|chunk' chunks].
  - simpl in Hs. rewrite app_nil_r in Hs. subst s.
    rewrite (Hrecv [v] []); [done|]. by apply drain_one_message.
  - rewrite (Hrecv [] (buffer st ++ chunk)).
    + rewrite IH; simpl; try done.
      * by rewrite app_nil_r.
      * by rewrite <- app_assoc.
    + apply drain_incomplete. subst s. simpl in Hend.
      rewrite app_assoc in Hend.
      apply (find_msg_end_prefix _ (chunk' ++ mjoin chunks)); [|done].
      apply Forall_cons in Hall as [Hc' _]. by destruct chunk'.
Qed.

(** *** Re-chunking *)

Local Ltac drain_round n :=
  rewrite (drain_step n) by done;
  vm_compute (find_msg_end _); cbn [Nat.eqb firstn skipn].

(** C3 on the code: the stream of two messages [{"a":1}{"b":" x"}] read in
    one piece gives both messages as sent; read in the two pieces
    [{"a":1}{"b":" ] and [x"}] it gives [{"b":"x"}] as second message: the
    [strip()] applied to what is left after the first message also removes
    the blank at the end of the unfinished second message. *)
Theorem rechunking_loses_whitespace v1 v2 v2' :
  loads Samples.first_message_text = Loaded v1 →
  loads Samples.second_message_text = Loaded v2 →
  loads Samples.second_message_cut = Loaded v2' →
  delivered (receive_all loads [Data (Samples.chunk1 ++ Samples.chunk2)] start)
    = [v1; v2] ∧
  delivered (receive_all loads [Data Samples.chunk1; Data Samples.chunk2] start)
    = [v1; v2'].
Proof.
  intros H1 H2 H3. vm_compute in H1, H2, H3.
  unfold receive_all. cbn [foldl]. split.
  - rewrite (receive_data _ start [v1; v2] []); [done..|].
    vm_compute (buffer start ++ _). cbn [List.length].
    drain_round 16%nat. rewrite H1. vm_compute (strip _).
    drain_round 15%nat. rewrite H2. vm_compute (strip _). reflexivity.
  - rewrite (receive_data _ start [v1] (json_text "{'b':'")); [|done..|].
    + rewrite (receive_data _ _ [v2'] []); [done..|].
      vm_compute (buffer _ ++ _). cbn [List.length].
      drain_round 8%nat. rewrite H3. vm_compute (strip _). reflexivity.
    + vm_compute (buffer start ++ _). vm_compute (json_text _). cbn [List.length].
      drain_round 13%nat. rewrite H1. vm_compute (strip _).
      drain_round 12%nat. reflexivity.
Qed.

End ReceiverFacts.

(** ** Undecodable input: client against server *)

Section DecodeErrors.
Import Receiver.
Context `{RE : RulesEngine} {M : Type} (loads : list ascii → Loads M).



End DecodeErrors.

(** ** Facts about the search opponent *)

Section ChessAIFacts.
Context `{RE : RulesEngine}.

Lemma choice_elem k (moves : list Move) :
  moves ≠ [] → ∃ mv, choice k moves = Some mv ∧ mv ∈ moves.
Proof.
  intros Hne. unfold choice. destruct moves as [|m moves]; [done|].
  set (l := m :: moves).
  destruct (lookup_lt_is_Some_2 l (k mod List.length l)%nat) as [mv Hmv].
  { apply Nat.mod_upper_bound. subst l. simpl. lia. }
  exists mv. split; [done|]. by eapply list_elem_of_lookup_2.
Qed.

(** The random player answers with a legal move whatever is drawn. *)
Lemma _get_random_move_legal b rnd :
  legal_moves b ≠ [] →
  ∃ mv, _get_random_move b rnd = Some mv ∧ mv ∈ legal_moves b.
Proof.
  intros Hne. unfold _get_random_move.
  set (captures := filter _ _). set (checks := filter _ _).
  assert (Hsub : ∀ (P : Move → Prop) `{!∀ m, Decision (P m)} k,
            filter P (legal_moves b) ≠ [] →
            ∃ mv, choice k (filter P (legal_moves b)) = Some mv ∧ mv ∈ legal_moves b).
  { intros P ? k Hp. destruct (choice_elem k _ Hp) as (mv & Hc & Hin).
    exists mv. split; [done|]. by apply list_elem_of_filter in Hin as [_ ?]. }
  case_bool_decide as Hcap; cbn [negb andb].
  - case_bool_decide as Hchk; cbn [negb andb]; [by apply choice_elem|].
    destruct (check_roll rnd); [by apply Hsub|by apply choice_elem].
  - destruct (capture_roll rnd); [by apply Hsub|].
    case_bool_decide as Hchk; cbn [negb andb]; [by apply choice_elem|].
    destruct (check_roll rnd); [by apply Hsub|by apply choice_elem].
Qed.

(** The root loop answers with the move it started from or one it tried. *)
Lemma root_loop_elem d b moves best bv alpha beta :
  root_loop d b moves best bv alpha beta = best ∨
  root_loop d b moves best bv alpha beta ∈ moves.
Proof.
  revert best bv alpha. induction moves as [|mv moves IH]; intros best bv alpha;
    simpl; [by left|].
  destruct (Score.gtb _ bv).
  - destruct (IH mv
      (Score.neg (_minimax (d - 1) (push b mv) (Score.neg beta) (Score.neg alpha)
                    (negb (board_turn (push b mv)))))
      (Score.max alpha
         (Score.neg (_minimax (d - 1) (push b mv) (Score.neg beta) (Score.neg alpha)
                       (negb (board_turn (push b mv))))))) as [->|Hin];
      right; set_solver.
  - destruct (IH best bv
      (Score.max alpha
         (Score.neg (_minimax (d - 1) (push b mv) (Score.neg beta) (Score.neg alpha)
                       (negb (board_turn (push b mv))))))) as [->|Hin];
      [by left|right; set_solver].
Qed.

Lemma _minimax_root_legal b d :
  legal_moves b ≠ [] →
  ∃ mv, _minimax_root b d = Some mv ∧ mv ∈ legal_moves b.
Proof.
  intros Hne. unfold _minimax_root.
  destruct (legal_moves b) as [|first moves] eqn:Hl; [done|].
  eexists. split; [done|].
  destruct (root_loop_elem d b (first :: moves) first NegInf NegInf PosInf)
    as [->|Hin]; [set_solver|done].
Qed.

(** C10. On a board with at least one legal move, [get_move] of an AI made
    with any difficulty string answers with a move, and the move is one of
    the legal moves of the board, whatever the random draws are. *)
Theorem get_move_is_legal (difficulty_text : string) b rnd :
  legal_moves b ≠ [] →
  ∃ mv, get_move (ChessAI_init difficulty_text) b rnd = Some mv ∧
        mv ∈ legal_moves b.
Proof.
  intros Hne. unfold get_move.
  destruct (decide (difficulty (ChessAI_init difficulty_text) = "easy")).
  - by apply _get_random_move_legal.
  - by apply _minimax_root_legal.
Qed.

End ChessAIFacts.


(** ** More about the server: connecting, spectating, joining *)

Section ServerEntry.
Context `{RE : RulesEngine}.

(** X1. A connection whose first message is an object of another type than
    "join" gets the error "First message must be a join request" and is
    closed: no handler is left, and lobby, registries and sessions are as
    before. *)
Theorem first_message_must_be_join w c addr m :
  handlers w !! c = None →
  field_get (m_type m) ≠ Some "join" →
  step w (Connect c addr (Decoded m)) =
    {| globals := send c (MError "First message must be a join request") (globals w);
       handlers := handlers w |}.
Proof.
  intros Hc Hty. unfold step, first_message. rewrite Hc.
  by rewrite decide_False by done.
Qed.

(** X2. A connection that holds no place is ignored: with no role (it joined
    with an unknown role), as a spectator without a binding, or as a player
    that is neither in the lobby nor in [games] and sends no lobby request,
    a message changes nothing, sends nothing, and the handler goes on. *)
Theorem placeless_connection_is_ignored c addr role env m st :
  role = NoRole ∨
  (role = Spectator ∧ spectators_of st !! c = None) ∨
  (role = Player ∧ in_lobby c addr st = false ∧ games st !! c = None ∧
   field_get (m_type m) ≠ Some "lobby_request") →
  handle_message c addr role env (Decoded m) st = (st, true).
Proof.
  intros [->|[[-> Hs]|(-> & Hl & Hg & Hty)]]; unfold handle_message.
  - repeat (case_bool_decide; try congruence); by rewrite ?andb_false_r.
  - rewrite Hs. repeat (case_bool_decide; try congruence);
      rewrite ?andb_false_r; simpl; by destruct (games st !! c).
  - rewrite Hl, Hg, !andb_false_r.
    repeat (case_bool_decide; try congruence); done.
Qed.

Lemma find_game_by_id_Some gid st r :
  find_game_by_id gid st = Some r →
  r ∈ active_refs st ∧ ∃ game, heap st !! r = Some game ∧ Some (game_id game) = gid.
Proof.
  unfold find_game_by_id. intros Hf. apply List.find_some in Hf as [Hin Hb].
  split; [by apply list_elem_of_In|].
  destruct (heap st !! r) as [game|]; [|done].
  exists game. split; [done|].
  destruct (decide (Some (game_id game) = gid)) as [|Hne]; [done|].
  by rewrite bool_decide_eq_false_2 in Hb.
Qed.

Lemma find_game_by_id_is_Some gid st r game :
  r ∈ active_refs st → heap st !! r = Some game → Some (game_id game) = gid →
  is_Some (find_game_by_id gid st).
Proof.
  intros Hin Hr Hid. unfold find_game_by_id.
  destruct (List.find _ _) as [r'|] eqn:Hf; [by eexists|].
  apply list_elem_of_In in Hin. pose proof (List.find_none _ _ Hf r Hin) as Hb.
  simpl in Hb. rewrite Hr in Hb. by rewrite bool_decide_eq_true_2 in Hb.
Qed.

(** X3. A connection that joins as spectator of an id carried by a session
    referenced from [games] (started or still waiting) is bound to a session
    with that id and appended to its spectators; it is sent, in this order,
    the notice, the board and the side to move, and from then on it is among
    the recipients of the session's broadcasts. *)
Theorem spectator_is_bound_and_synced c addr m gid st r0 game0 :
  field_get (m_type m) = Some "join" →
  m_role m = Str "spectator" →
  m_game_id m = Str gid →
  r0 ∈ active_refs st → heap st !! r0 = Some game0 → game_id game0 = gid →
  ∃ r game,
    r ∈ active_refs st ∧ heap st !! r = Some game ∧ game_id game = gid ∧
    let st' := (first_message c addr (Decoded m) st).1.1 in
    (first_message c addr (Decoded m) st).1.2 = Spectator ∧
    (first_message c addr (Decoded m) st).2 = true ∧
    spectators_of st' = <[c := r]> (spectators_of st) ∧
    heap st' = alter (append_spectator c) r (heap st) ∧
    lobby st' = lobby st ∧ games st' = games st ∧
    waiting_games st' = waiting_games st ∧
    sent st' = sent st ++
      [ (c, MInfo ("You are now spectating Game #" +:+ gid));
        (c, MBoard (fen (board game)));
        (c, MTurnOnly (color_name (turn game))) ] ∧
    c ∈ recipients (append_spectator c game).
Proof.
  intros Hty Hrole Hgid Hin Hr0 Hid0.
  destruct (find_game_by_id_is_Some (Some gid) st r0 game0 Hin Hr0) as [r Hf];
    [by rewrite Hid0|].
  destruct (find_game_by_id_Some _ _ _ Hf) as (Hrin & game & Hr & Hid).
  injection Hid as Hid. exists r, game. split; [done|]. split; [done|]. split; [done|].
  unfold first_message. rewrite Hty, Hrole, Hgid. cbn [field_get field_get_default].
  rewrite decide_True by done. rewrite decide_False by done.
  rewrite decide_True by done. rewrite Hf. cbn [fst snd].
  unfold add_spectator. rewrite Hr, Hid. simpl.
  repeat split; try done.
  - by rewrite <- !app_assoc.
  - unfold recipients. simpl. set_solver.
Qed.

(** X4. When no session referenced from [games] carries the id, the spectator
    is told so with the list of the known ids (the ids of the sessions
    referenced from [games], in some order) and stays connected without a
    binding; nothing else changes. *)
Theorem spectator_of_unknown_game c addr m st :
  field_get (m_type m) = Some "join" →
  m_role m = Str "spectator" →
  (∀ r game, r ∈ active_refs st → heap st !! r = Some game →
             Some (game_id game) ≠ field_get (m_game_id m)) →
  ∃ ids,
    ids ≡ₚ omap (λ r, game_id <$> heap st !! r) (active_refs st) ∧
    first_message c addr (Decoded m) st =
      (send c (MInfo ("Game #" +:+ py_str (field_get (m_game_id m)) +:+
                      " not found. Active games: " +:+ py_repr_list ids))
            st, Spectator, true).
Proof.
  intros Hty Hrole Hnone. eexists. split; [done|].
  unfold first_message. rewrite Hty, Hrole.
  cbn [field_get_default]. rewrite decide_True by done.
  rewrite decide_False by done. rewrite decide_True by done.
  destruct (find_game_by_id _ _) as [r|] eqn:Hf; [|done].
  destruct (find_game_by_id_Some _ _ _ Hf) as (Hin & game & Hr & Hid).
  by destruct (Hnone r game Hin Hr).
Qed.

(** X5. The password check of [join_game] on a private session with password
    [pw]: the joiner is seated exactly when the request carries the string
    [pw], or carries no password at all while [pw] is the empty string; a
    password that is [null] (or any other string) is refused with the error
    and no other effect. *)
Theorem private_join_password_rule c addr env m k r st game pw :
  m_game_id m = Str k →
  Dict.get k (waiting_games st) = Some r →
  heap st !! r = Some game →
  is_private game = true →
  password game = Some pw →
  let passes := m_password m = Str pw ∨ (m_password m = Absent ∧ pw = "") in
  (passes → games (join_game c addr env m st) !! c = Some r ∧
            black_conn <$> heap (join_game c addr env m st) !! r = Some (Some c)) ∧
  (¬ passes →
     join_game c addr env m st =
       send c (MError "Incorrect password for private game.") st).
Proof.
  intros Hk Hget Hr Hpriv Hpw passes.
  assert (Hiff : passes ↔ provided_password m = password game).
  { unfold passes, provided_password. rewrite Hpw.
    destruct (m_password m) as [| |s]; simpl; split; try naive_solver. }
  split.
  - intros Hp. apply Hiff in Hp.
    destruct (join_game_success c addr env m k r st game Hk Hget Hr (or_intror Hp))
      as (_ & Hg & _ & Hh & _).
    cbv zeta in *. rewrite Hg, Hh. split; [apply lookup_insert_eq|done].
  - intros Hp. unfold join_game. rewrite Hk. cbn [field_get].
    rewrite Hget. cbn [mbind option_bind]. rewrite Hr.
    cbn [fmap option_fmap option_map]. rewrite Hpriv.
    rewrite bool_decide_eq_false_2; [done|].
    intros Heq. apply Hp, Hiff. done.
Qed.

(** X6. A game can be joined once: after a join that seated a player, a further
    join request on the same id, from anyone, is answered with "not found or
    already full" and has no other effect. *)
Theorem game_is_joined_once c addr env m k r st game c' addr' env' m' :
  Dict.wf (waiting_games st) →
  m_game_id m = Str k →
  Dict.get k (waiting_games st) = Some r →
  heap st !! r = Some game →
  is_private game = false ∨ provided_password m = password game →
  m_game_id m' = Str k →
  let st' := join_game c addr env m st in
  join_game c' addr' env' m' st' =
    send c' (MError ("Game #" +:+ k +:+ " not found or already full.")) st'.
Proof.
  intros Hwf Hk Hget Hr Hpw Hk' st'.
  destruct (join_game_success c addr env m k r st game Hk Hget Hr Hpw) as (Hw & _).
  fold st' in Hw. unfold join_game at 1. rewrite Hk'. cbn [field_get].
  rewrite Hw, get_del by done. reflexivity.
Qed.

End ServerEntry.


(** ** More about the server: chat, moves, leaving, the watchdog *)

Section ServerPlay.
Context `{RE : RulesEngine}.

(** X7. A chat message of a seated player is relayed to both seats and all
    spectators of its session with the sender's colour in front, and one of
    a bound spectator with "Spectator: " in front; nothing else changes.  A
    [null] text is relayed as "None"; a chat object without the "msg" key
    raises, which ends the handler's loop. *)
Theorem chat_is_relayed c addr env m st r game :
  m_type m = Str "chat" →
  heap st !! r = Some game →
  (games st !! c = Some r →
   handle_message c addr Player env (Decoded m) st =
     match m_msg m with
     | Absent => (st, false)
     | f => (log (to_all (recipients game)
                    (MChat (color_name (seat_color game c) +:+ ": " +:+
                            py_str (field_get f)))) st, true)
     end) ∧
  (spectators_of st !! c = Some r →
   handle_message c addr Spectator env (Decoded m) st =
     match m_msg m with
     | Absent => (st, false)
     | f => (log (to_all (recipients game)
                    (MChat ("Spectator: " +:+ py_str (field_get f)))) st, true)
     end).
Proof.
  intros Hty Hr. split; intros Hc; unfold handle_message; rewrite Hty;
    cbn [field_get]; repeat (case_bool_decide; try congruence);
    cbn [andb]; rewrite ?Hc; cbn [mbind option_bind]; rewrite ?Hr.
  - unfold seat_color. destruct (m_msg m); try done;
      rewrite broadcast_log; by case_bool_decide; case_decide.
  - destruct (games st !! c); destruct (m_msg m); try done; by rewrite broadcast_log.
Qed.

(** [next_turn] in one equation: the session gets the other colour and the
    time stamp, the notice of the end (if any), the turn and the board are
    broadcast in this order, and the status is "ended" exactly for a
    checkmate, a stalemate or insufficient material. *)
Lemma next_turn_eq r t st g0 :
  heap st !! r = Some g0 →
  let g := set_turn_time (negb (turn g0)) t g0 in
  next_turn r t st =
    (log (mjoin (map (to_all (recipients g0))
                   (end_notice (board g0) (negb (turn g0)) ++
                    [ MTurn (color_name (negb (turn g0)))
                        (if terminal (board g0) then "ended" else "active")
                        MOVE_TIMEOUT_SECONDS;
                      MBoard (fen (board g0)) ])))
         (update_game r (λ _, g) st),
     terminal (board g0)).
Proof.
  intros Hr g. unfold next_turn, terminal, end_notice. rewrite Hr. fold g.
  change (board g) with (board g0). change (turn g) with (negb (turn g0)).
  change (recipients g) with (recipients g0).
  destruct (is_checkmate (board g0)); [|destruct (is_stalemate (board g0));
    [|destruct (is_insufficient_material (board g0))]];
    rewrite !broadcast_log, ?log_log; simpl; by rewrite ?app_nil_r, <- ?app_assoc.
Qed.

Lemma alter_const_twice (g1 g2 : GameSession) (r : nat) (h : list GameSession) :
  alter (λ _, g2) r (alter (λ _, g1) r h) = alter (λ _, g2) r h.
Proof.
  apply list_eq. intros i. destruct (decide (i = r)) as [->|Hne].
  - rewrite !list_lookup_alter_eq. by destruct (h !! r).
  - by rewrite !list_lookup_alter_ne.
Qed.

(** X8. An accepted move that does not end the game changes the session only
    (pushed board, other colour, new time stamp): lobby and registries stay,
    and the session is sent the move, then the turn with status "active"
    and the time limit, then the board. *)
Theorem ordinary_move_update c env m r st game text mv :
  heap st !! r = Some game →
  move_acceptable game c m text mv →
  terminal (push (board game) mv) = false →
  let st' := handle_move c env m r st in
  let b' := push (board game) mv in
  lobby st' = lobby st ∧ games st' = games st ∧
  waiting_games st' = waiting_games st ∧ spectators_of st' = spectators_of st ∧
  heap st' = alter (λ _, set_turn_time (negb (turn game)) (now env)
                           (set_board b' game)) r (heap st) ∧
  sent st' = sent st ++
    mjoin (map (to_all (recipients game))
             [ MMove text (fen b');
               MTurn (color_name (negb (turn game))) "active" MOVE_TIMEOUT_SECONDS;
               MBoard (fen b') ]).
Proof.
  intros Hr (Hturn & Hm & Huci & Hlegal) Hterm.
  unfold handle_move. rewrite Hr. fold (seat_color game c). rewrite <- Hturn.
  rewrite Bool.eqb_reflx. cbn [negb]. rewrite Hm, Huci.
  rewrite bool_decide_eq_true_2 by done. cbv zeta.
  set (g1 := set_board (push (board game) mv) game).
  rewrite broadcast_log.
  rewrite (next_turn_eq r (now env) _ g1)
    by (simpl; by rewrite list_lookup_alter_eq, Hr).
  change (board g1) with (push (board game) mv). rewrite Hterm.
  unfold end_notice. unfold terminal in Hterm.
  apply orb_false_elim in Hterm as [Hterm Hins].
  apply orb_false_elim in Hterm as [Hmate Hstale].
  rewrite Hmate, Hstale, Hins. simpl.
  rewrite alter_const_twice. repeat split; try done.
  by rewrite <- !app_assoc, !app_nil_r.
Qed.



Lemma drop_spectators_eq specs st :
  drop_spectators specs st =
    log (to_all specs (MInfo "Game ended due to player disconnection."))
        (set_spectators_of (unbind_all specs (spectators_of st)) st).
Proof.
  revert st. induction specs as [|s specs IH]; intros st.
  - destruct st. unfold log, set_spectators_of. simpl. by rewrite app_nil_r.
  - unfold drop_spectators in *. simpl. rewrite IH.
    unfold log, set_spectators_of, send. simpl. by rewrite <- app_assoc.
Qed.

Lemma unbind_all_lookup specs (m : gmap Conn nat) s :
  unbind_all specs m !! s = if decide (s ∈ specs) then None else m !! s.
Proof.
  revert m. induction specs as [|s' specs IH]; intros m; simpl; [done|].
  unfold unbind_all in *. simpl. rewrite IH.
  destruct (decide (s = s')) as [->|Hne].
  - rewrite lookup_delete_eq. rewrite (decide_True (P := s' ∈ s' :: specs)) by set_solver.
    by destruct (decide _).
  - rewrite lookup_delete_ne by done.
    destruct (decide (s ∈ specs)).
    + by rewrite decide_True by set_solver.
    + by rewrite decide_False by set_solver.
Qed.

(** X11. The disconnection of a player seated against an opponent (the player
    being neither in the lobby nor the creator of a waiting game): the
    opponent is told and sent [game_over] with reason "disconnection", both
    lose their [games] entries, the opponent is appended to the lobby, and
    every spectator of the session is told and loses its binding, the other
    bindings being kept. *)
Theorem disconnect_ends_game c addr st r game o oa :
  in_lobby c addr st = false →
  game_to_remove c st = None →
  games st !! c = Some r →
  heap st !! r = Some game →
  opponent game c = Some o →
  opponent_address game (Some o) = Some oa →
  let st' := disconnect c addr Player st in
  lobby st' = lobby st ++ [(o, oa)] ∧
  games st' = delete o (delete c (games st)) ∧
  waiting_games st' = waiting_games st ∧ heap st' = heap st ∧
  (∀ s, spectators_of st' !! s =
          if decide (s ∈ spectators game) then None else spectators_of st !! s) ∧
  ∃ lobby_update,
    sent st' = sent st ++
      [ (o, MInfo "Opponent disconnected. Game ended.");
        (o, MGameOver "Opponent disconnected." "disconnection") ] ++
      to_all (spectators game) (MInfo "Game ended due to player disconnection.") ++
      lobby_update.
Proof.
  intros Hl Hw Hc Hr Ho Hoa. unfold disconnect. rewrite Hl, Hw, Hc.
  cbn [mbind option_bind]. rewrite Hr, Ho, Hoa.
  rewrite broadcast_lobby_log, drop_spectators_eq, !send_all_log. simpl.
  repeat split; try done.
  - intros s. apply unbind_all_lookup.
  - eexists. rewrite <- !app_assoc. simpl. reflexivity.
Qed.

Lemma disconnect_clears_registries c addr st :
  registry_invariant st →
  let st' := disconnect c addr Player st in
  games st' !! c = None ∧
  (in_lobby c addr st = false →
   ∀ gid, game_to_remove c st = Some gid → gid ≠ "" →
          Dict.get gid (waiting_games st') = None).
Proof.
  intros Hinv. unfold disconnect.
  set (st1 := if in_lobby c addr st then _ else st).
  assert (Hs1 : shrinks st st1).
  { subst st1. destruct (in_lobby c addr st); [|apply shrinks_refl].
    eapply shrinks_trans; [apply shrinks_lobby_remove|apply shrinks_broadcast_lobby]. }
  set (st2 := match game_to_remove c st1 with Some _ => _ | None => st1 end).
  assert (Hs2 : shrinks st1 st2).
  { subst st2. destruct (game_to_remove c st1) as [gid|]; [|apply shrinks_refl].
    destruct (str_truthy _); [|apply shrinks_refl].
    eapply shrinks_trans; [apply shrinks_del_waiting|apply shrinks_broadcast_lobby]. }
  pose proof (registry_invariant_shrinks st st2 (shrinks_trans _ _ _ Hs1 Hs2) Hinv)
    as (Hwf2 & _ & Hg2).
  split.
  - destruct (games st2 !! c) as [r|] eqn:Hc; cbn [mbind option_bind]; [|done].
    destruct (Hg2 c r Hc) as (game & Hr & _). rewrite Hr.
    rewrite broadcast_lobby_log, drop_spectators_eq. simpl.
    destruct (opponent game c) as [o|]; [destruct (opponent_address game (Some o))|];
      simpl; rewrite ?lookup_delete; repeat case_decide; try done;
      apply lookup_delete_eq.
  - intros Hl gid Hrem Hne. clear Hs1 Hs2 Hwf2 Hg2. subst st2 st1.
    rewrite Hl. cbv iota. rewrite Hrem.
    unfold str_truthy. rewrite bool_decide_eq_false_2 by done. cbn [negb].
    rewrite broadcast_lobby_log.
    destruct Hinv as (Hwf & _).
    assert (Hgone : Dict.get gid (Dict.del gid (waiting_games st)) = None)
      by by apply get_del.
    destruct (games _ !! c ≫= _) as [game|]; [|done].
    rewrite broadcast_lobby_log, drop_spectators_eq.
    destruct (opponent game c) as [o|]; [destruct (opponent_address game (Some o))|];
      done.
Qed.

(** X12. After the [finally] block of a player's handler the player has no entry
    in [games], whatever state the server was in; and the first waiting game
    it created (when it was not in the lobby) is gone from [waiting_games]. *)
Theorem disconnect_clears_player w c addr :
  reachable w →
  let st := globals w in
  let st' := disconnect c addr Player st in
  games st' !! c = None ∧
  (in_lobby c addr st = false →
   ∀ gid, game_to_remove c st = Some gid → gid ≠ "" →
          Dict.get gid (waiting_games st') = None).
Proof.
  intros Hreach. apply disconnect_clears_registries.
  by apply registry_invariant_reachable.
Qed.

(** X13. The watchdog leaves alone a session whose last move is no older than the
    limit, and one whose side to move has no connection.  After a timeout
    whose timer was reset at [t], a scan no later than 60 seconds after [t]
    does not pass the turn again; and when the side that got the turn has no
    connection (a game still waiting for its second player), no later scan
    changes the session any more. *)
Theorem watchdog_skips ct t r st game :
  heap st !! r = Some game →
  ((ct - last_move_time game <= MOVE_TIMEOUT_SECONDS)%Z ∨
   players game !! turn game = None →
   check_game ct t r st = st) ∧
  (∀ ct' t', timed_out ct game →
     (ct' - t <= MOVE_TIMEOUT_SECONDS)%Z ∨ players game !! negb (turn game) = None →
     check_game ct' t' r (check_game ct t r st) = check_game ct t r st).
Proof.
  intros Hr. split.
  - intros Hskip. rewrite (check_game_eq ct t r st game Hr).
    rewrite decide_False; [done|]. intros [Hold [p Hp]].
    destruct Hskip as [Hyoung|Hnone]; [lia|congruence].
  - intros ct' t' Hto Hskip.
    rewrite (check_game_eq ct t r st game Hr). rewrite decide_True by done.
    set (g' := set_turn_time (negb (turn game)) t game).
    rewrite (check_game_eq ct' t' r _ g')
      by (simpl; by rewrite list_lookup_alter_eq, Hr).
    rewrite decide_False; [done|]. intros [Hold [p Hp]]. simpl in Hold, Hp.
    destruct Hskip as [Hyoung|Hnone]; [lia|congruence].
Qed.

End ServerPlay.


(** ** More about the client's receive loop *)

Section ReceiverMore.
Import Receiver.
Context {M : Type} (loads : list ascii → Loads M).

(** Inside a string the scan passes over a body without leaving the string
    and without counting its braces. *)
Lemma scan_string_body body rest i d :
  string_body body →
  scan (body ++ rest) i d true false = scan rest (i + List.length body) d true false.
Proof.
  intros Hb. revert i. induction Hb as [|c body Hq Hbs Hb IH|c body Hb IH]; intros i.
  - cbn [app List.length]. by rewrite Nat.add_0_r.
  - cbn [app scan List.length].
    destruct (decide (c = backslash)) as [|_]; [done|].
    destruct (decide (c = dquote)) as [|_]; [done|].
    cbn [negb]. rewrite IH. f_equal. lia.
  - cbn [app scan List.length].
    destruct (decide (backslash = backslash)) as [_|]; [|done].
    rewrite IH. f_equal. lia.
Qed.

(** X15. Braces and escaped quotes inside a quoted string do not end or extend a
    message: an object that consists of one string, whatever its body holds,
    ends at its closing brace. *)
Theorem quoted_braces_are_skipped body :
  string_body body →
  find_msg_end ([lbrace; dquote] ++ body ++ [dquote; rbrace])
    = (List.length body + 4)%nat.
Proof.
  intros Hb. unfold find_msg_end.
  change ([lbrace; dquote] ++ body ++ [dquote; rbrace])
    with (lbrace :: dquote :: (body ++ [dquote; rbrace])).
  change (scan (lbrace :: dquote :: (body ++ [dquote; rbrace])) 0 0 false false)
    with (scan (body ++ [dquote; rbrace]) 2 1 true false).
  rewrite scan_string_body by done.
  change (scan [dquote; rbrace] (2 + List.length body) 1 true false)
    with (S (S (2 + List.length body))).
  lia.
Qed.

(** X16. Two whole messages that arrive in one read on an empty buffer are both
    handed on, in order, and the buffer is empty again. *)
Theorem two_messages_one_read s1 s2 v1 v2 st :
  running st = true → connected st = true → buffer st = [] →
  s1 ≠ [] → s2 ≠ [] →
  find_msg_end s1 = List.length s1 →
  find_msg_end s2 = List.length s2 →
  strip s2 = s2 →
  loads s1 = Loaded v1 → loads s2 = Loaded v2 →
  receive loads (Data (s1 ++ s2)) st =
    {| buffer := []; connected := true; running := true;
       delivered := delivered st ++ [v1; v2] |}.
Proof.
  intros Hrun Hcon Hbuf Hs1 Hs2 He1 He2 Hstrip Hv1 Hv2.
  apply receive_data; try done; [by destruct s1|].
  rewrite Hbuf. cbn [app]. rewrite length_app.
  destruct s1 as [|c1 s1]; [done|]. destruct s2 as [|c2 s2]; [done|].
  cbn [List.length]. rewrite Nat.add_succ_r.
  by apply two_messages_in_one_read.
Qed.

Lemma find_msg_end_none_prefix buf more :
  find_msg_end (buf ++ more) = 0%nat → find_msg_end buf = 0%nat.
Proof.
  unfold find_msg_end. intros H.
  destruct (decide (scan buf 0 0 false false = 0%nat)) as [|Hne]; [done|].
  rewrite scan_app in H by done. done.
Qed.

(** X18. Text without a message end is kept, however long it gets: reads whose
    concatenation after the buffer has no message end hand nothing on and
    leave the buffer holding all of it.  (The limit of 1000 characters is
    looked at after a decode error only.) *)
Theorem unfinished_text_accumulates chunks st :
  running st = true → connected st = true →
  Forall (λ chunk, chunk ≠ []) chunks →
  find_msg_end (buffer st ++ mjoin chunks) = 0%nat →
  receive_all loads (map Data chunks) st =
    {| buffer := buffer st ++ mjoin chunks; connected := true; running := true;
       delivered := delivered st |}.
Proof.
  intros Hrun Hcon Hall. revert st Hrun Hcon.
  induction Hall as [|chunk chunks Hchunk Hall IH]; intros st Hrun Hcon Hend.
  - simpl. rewrite app_nil_r. destruct st. simpl in *. by subst.
  - change (receive_all loads (map Data (chunk :: chunks)) st)
      with (receive_all loads (map Data chunks) (receive loads (Data chunk) st)).
    simpl in Hend. rewrite app_assoc in Hend.
    rewrite (receive_data loads chunk st [] (buffer st ++ chunk)); try done.
    + rewrite IH; simpl; try done. by rewrite app_nil_r, <- app_assoc.
    + destruct (List.length (buffer st ++ chunk)) as [|fuel] eqn:Hlen.
      { destruct (buffer st), chunk; done. }
      apply drain_incomplete. by eapply find_msg_end_none_prefix.
Qed.

(** X19. After a span was rejected with [JSONDecodeError] the buffer holds at most
    1000 characters. *)
Theorem decode_error_bounds_buffer st text :
  running st = true → connected st = true → text ≠ [] →
  find_msg_end (buffer st ++ text) ≠ 0%nat →
  loads (take (find_msg_end (buffer st ++ text)) (buffer st ++ text))
    = JSONDecodeError →
  (List.length (buffer (receive loads (Data text) st)) <= 1000)%nat.
Proof.
  intros Hrun Hcon Hne Hend Hl.
  set (buf := buffer st ++ text) in *.
  set (rest := strip (drop (find_msg_end buf) buf)).
  rewrite (receive_data loads text st []
             (if (1000 <? List.length rest)%nat then [] else rest)); try done.
  - simpl. destruct (Nat.ltb_spec 1000 (List.length rest)); simpl; lia.
  - fold buf. assert (Hbuf : buf ≠ []) by (subst buf; destruct (buffer st), text; done).
    destruct (List.length buf) as [|fuel] eqn:Hlen; [by destruct buf|].
    rewrite drain_step by done. apply Nat.eqb_neq in Hend. by rewrite Hend, Hl.
Qed.

(** X20. The receiver thread ends on an empty read (the peer closed the stream),
    leaving [connected] as it was, and on a failed read, which also clears
    [connected]; once it has ended, no later data is looked at. *)
Theorem receiver_stops st reads :
  running st = true → connected st = true →
  receive_all loads reads (receive loads (Data []) st) =
    {| buffer := buffer st; connected := true; running := false;
       delivered := delivered st |} ∧
  receive_all loads reads (receive loads Failure st) =
    {| buffer := buffer st; connected := false; running := false;
       delivered := delivered st |}.
Proof.
  intros Hrun Hcon.
  assert (Hstopped : ∀ st0, running st0 = false → receive_all loads reads st0 = st0).
  { induction reads as [|rd reads IH]; intros st0 H0; [done|].
    change (receive_all loads (rd :: reads) st0)
      with (receive_all loads reads (receive loads rd st0)).
    unfold receive at 1. rewrite H0. cbn [andb negb]. by apply IH. }
  unfold receive. rewrite Hrun, Hcon. cbn [andb negb].
  split; by rewrite Hstopped.
Qed.

End ReceiverMore.

(** ** More about the search opponent *)

Section ChessAIMore.
Context `{RE : RulesEngine}.

Lemma lower_char_idempotent c : lower_char (lower_char c) = lower_char c.
Proof. by destruct c as [[] [] [] [] [] [] [] []]. Qed.

Lemma lower_idempotent s : lower (lower s) = lower s.
Proof.
  induction s as [|c s IH]; [done|]. simpl. by rewrite lower_char_idempotent, IH.
Qed.

(** X22. The difficulty is read without regard to case, and anything that is not
    "easy", "medium" or "hard" gives the medium player: the AI made is one
    of easy with depth 1, medium with depth 2 and hard with depth 3. *)
Theorem ChessAI_init_normalises text :
  ChessAI_init (lower text) = ChessAI_init text ∧
  (ChessAI_init text = {| difficulty := "easy"; depth := 1 |} ∧ lower text = "easy" ∨
   ChessAI_init text = {| difficulty := "medium"; depth := 2 |} ∧
     lower text ≠ "easy" ∧ lower text ≠ "hard" ∨
   ChessAI_init text = {| difficulty := "hard"; depth := 3 |} ∧ lower text = "hard").
Proof.
  unfold ChessAI_init. rewrite lower_idempotent. split; [done|].
  repeat case_decide; subst; try rewrite H; try rewrite H0; try rewrite H1;
    naive_solver.
Qed.

(** X23. [get_move] gives no move exactly when the board has no legal move (the
    random player then fails in [random.choice], the search returns [None]). *)
Theorem get_move_none_iff ai b rnd :
  get_move ai b rnd = None ↔ legal_moves b = [].
Proof.
  split.
  - intros Hnone. destruct (legal_moves b) as [|mv moves] eqn:Hl; [done|].
    assert (Hne : legal_moves b ≠ []) by by rewrite Hl.
    unfold get_move in Hnone. case_decide.
    + destruct (_get_random_move_legal b rnd Hne) as (? & ? & _). congruence.
    + destruct (_minimax_root_legal b (depth ai) Hne) as (? & ? & _). congruence.
  - intros Hl. unfold get_move, _get_random_move, _minimax_root. rewrite Hl.
    case_decide; [|done]. simpl. by destruct (capture_roll rnd), (check_roll rnd).
Qed.

(** X24. The random player's preferences: when a capture is legal and the first
    draw succeeds, the answer is a capture; otherwise, when a move that gives
    check without capturing is legal and the second draw succeeds, the answer
    is such a move. *)
Theorem random_move_preferences b rnd :
  (capture_roll rnd = true →
   (∃ m, m ∈ legal_moves b ∧ is_capture b m = true) →
   ∃ mv, _get_random_move b rnd = Some mv ∧ mv ∈ legal_moves b ∧
         is_capture b mv = true) ∧
  (check_roll rnd = true →
   capture_roll rnd = false ∨ (∀ m, m ∈ legal_moves b → is_capture b m = false) →
   (∃ m, m ∈ legal_moves b ∧ is_capture b m = false ∧ is_check (push b m) = true) →
   ∃ mv, _get_random_move b rnd = Some mv ∧ mv ∈ legal_moves b ∧
         is_capture b mv = false ∧ is_check (push b mv) = true).
Proof.
  unfold _get_random_move.
  set (captures := filter _ _). set (checks := filter (λ m, _ ∧ _) _).
  split.
  - intros Hroll (m & Hin & Hcap).
    assert (Hne : captures ≠ []).
    { intros Hnil. assert (m ∈ captures) by by apply list_elem_of_filter.
      rewrite Hnil in H. by apply elem_of_nil in H. }
    rewrite bool_decide_eq_false_2 by done. rewrite Hroll. cbn [negb andb].
    destruct (choice_elem (choice_index rnd) captures Hne) as (mv & Hc & Hmv).
    exists mv. split; [done|]. by apply list_elem_of_filter in Hmv as [? ?].
  - intros Hroll Hnocap (m & Hin & Hcap & Hchk).
    assert (Hne : checks ≠ []).
    { intros Hnil. assert (m ∈ checks) by by apply list_elem_of_filter.
      rewrite Hnil in H. by apply elem_of_nil in H. }
    assert (Hfirst : negb (bool_decide (captures = [])) && capture_roll rnd = false).
    { destruct Hnocap as [->|Hnone]; [apply andb_false_r|].
      rewrite bool_decide_eq_true_2; [done|].
      destruct captures as [|x xs] eqn:Hcaps; [done|].
      assert (Hx : x ∈ captures) by (rewrite Hcaps; set_solver).
      apply list_elem_of_filter in Hx as [Hx1 Hx2]. rewrite Hnone in Hx1; done. }
    rewrite Hfirst. rewrite bool_decide_eq_false_2 by done. rewrite Hroll.
    cbn [negb andb].
    destruct (choice_elem (choice_index rnd) checks Hne) as (mv & Hc & Hmv).
    exists mv. split; [done|]. apply list_elem_of_filter in Hmv as [[? ?] ?]. done.
Qed.

End ChessAIMore.


(** ** The search and its pruning *)

Local Ltac score_order :=
  intros; unfold fail_soft, Score.max, Score.min, Score.gtb in *;
  repeat match goal with x : Score |- _ => destruct x end;
  cbn [Score.leb Score.neg negb] in *; try done;
  repeat (match goal with
   | H : context [(?x <=? ?y)%Z] |- _ => destruct (Z.leb_spec x y); try lia
   | |- context [(?x <=? ?y)%Z] => destruct (Z.leb_spec x y); try lia
  end; cbn [Score.leb Score.neg negb] in *; try done);
  try done; try (f_equal; lia);
  intuition (simplify_eq; try done; try lia; try (f_equal; lia)).


Section ScoreOrder.

Lemma Score_leb_refl a : Score.leb a a = true.
Proof. score_order. Qed.

Lemma Score_leb_trans a b c :
  Score.leb a b = true → Score.leb b c = true → Score.leb a c = true.
Proof. score_order. Qed.



Lemma Score_leb_max_r a b : Score.leb b (Score.max a b) = true.
Proof. score_order. Qed.

Lemma Score_leb_max_l a b : Score.leb a (Score.max a b) = true.
Proof. score_order. Qed.

Lemma Score_leb_min_r a b : Score.leb (Score.min a b) b = true.
Proof. score_order. Qed.

Lemma Score_leb_min_l a b : Score.leb (Score.min a b) a = true.
Proof. score_order. Qed.

Lemma base_max a0 beta value E :
  Score.gtb beta (Score.max a0 value) = true →
  Score.leb E value = true →
  (Score.gtb value a0 = true → value = E) →
  fail_soft value E a0 beta.
Proof. score_order. Qed.

Lemma cutoff_max a0 beta value r v V :
  Score.gtb beta (Score.max a0 value) = true →
  fail_soft r v (Score.max a0 value) beta →
  Score.leb v V = true →
  Score.leb beta (Score.max (Score.max a0 value) (Score.max value r)) = true →
  fail_soft (Score.max value r) V a0 beta.
Proof. score_order. Qed.

Lemma continue_max a0 beta value r v E :
  Score.gtb beta (Score.max a0 value) = true →
  fail_soft r v (Score.max a0 value) beta →
  Score.leb E value = true →
  (Score.gtb value a0 = true → value = E) →
  Score.leb beta (Score.max (Score.max a0 value) (Score.max value r)) = false →
  Score.max (Score.max a0 value) (Score.max value r) = Score.max a0 (Score.max value r) ∧
  Score.leb (Score.max E v) (Score.max value r) = true ∧
  (Score.gtb (Score.max value r) a0 = true → Score.max value r = Score.max E v).
Proof. score_order. Qed.

Lemma base_min alpha b0 value E :
  Score.gtb (Score.min b0 value) alpha = true →
  Score.leb value E = true →
  (Score.gtb b0 value = true → value = E) →
  fail_soft value E alpha b0.
Proof. score_order. Qed.

Lemma cutoff_min alpha b0 value r v V :
  Score.gtb (Score.min b0 value) alpha = true →
  fail_soft r v alpha (Score.min b0 value) →
  Score.leb V v = true →
  Score.leb (Score.min (Score.min b0 value) (Score.min value r)) alpha = true →
  fail_soft (Score.min value r) V alpha b0.
Proof. score_order. Qed.

Lemma continue_min alpha b0 value r v E :
  Score.gtb (Score.min b0 value) alpha = true →
  fail_soft r v alpha (Score.min b0 value) →
  Score.leb value E = true →
  (Score.gtb b0 value = true → value = E) →
  Score.leb (Score.min (Score.min b0 value) (Score.min value r)) alpha = false →
  Score.min (Score.min b0 value) (Score.min value r) = Score.min b0 (Score.min value r) ∧
  Score.leb (Score.min value r) (Score.min E v) = true ∧
  (Score.gtb b0 (Score.min value r) = true → Score.min value r = Score.min E v).
Proof. score_order. Qed.


Lemma full_window r v : fail_soft r v NegInf PosInf → r = v.
Proof. score_order. Qed.

End ScoreOrder.

Section Pruning.
Context `{RE : RulesEngine}.

Lemma foldl_max_ge (f : Move → Score) moves E :
  Score.leb E (foldl (λ value move, Score.max value (f move)) E moves) = true.
Proof.
  revert E. induction moves as [|m moves IH]; intros E; simpl.
  - apply Score_leb_refl.
  - eapply Score_leb_trans; [apply Score_leb_max_l|apply IH].
Qed.

Lemma foldl_min_le (f : Move → Score) moves E :
  Score.leb (foldl (λ value move, Score.min value (f move)) E moves) E = true.
Proof.
  revert E. induction moves as [|m moves IH]; intros E; simpl.
  - apply Score_leb_refl.
  - eapply Score_leb_trans; [apply IH|apply Score_leb_min_l].
Qed.

Lemma maximize_sound child (exact : Board → Score) b a0 beta :
  (∀ b' alpha beta', Score.gtb beta' alpha = true →
     fail_soft (child b' alpha beta') (exact b') alpha beta') →
  ∀ moves value E,
    Score.gtb beta (Score.max a0 value) = true →
    Score.leb E value = true →
    (Score.gtb value a0 = true → value = E) →
    fail_soft (maximize child b moves value (Score.max a0 value) beta)
      (foldl (λ value move, Score.max value (exact (push b move))) E moves) a0 beta.
Proof.
  intros Hchild. induction moves as [|m moves IH]; intros value E Hwin Hle Hex.
  - by apply base_max.
  - cbn [maximize foldl].
    set (r := child (push b m) (Score.max a0 value) beta).
    set (v := exact (push b m)).
    assert (Hr : fail_soft r v (Score.max a0 value) beta) by by apply Hchild.
    destruct (Score.leb beta (Score.max (Score.max a0 value) (Score.max value r)))
      eqn:Hcut.
    + eapply cutoff_max; [done..| |done].
      eapply Score_leb_trans; [apply Score_leb_max_r|apply foldl_max_ge].
    + destruct (continue_max a0 beta value r v E Hwin Hr Hle Hex Hcut) as (Heq & ? & ?).
      rewrite Heq. apply IH; try done.
      rewrite <- Heq. unfold Score.gtb. by rewrite Hcut.
Qed.

Lemma minimize_sound child (exact : Board → Score) b alpha b0 :
  (∀ b' alpha' beta, Score.gtb beta alpha' = true →
     fail_soft (child b' alpha' beta) (exact b') alpha' beta) →
  ∀ moves value E,
    Score.gtb (Score.min b0 value) alpha = true →
    Score.leb value E = true →
    (Score.gtb b0 value = true → value = E) →
    fail_soft (minimize child b moves value alpha (Score.min b0 value))
      (foldl (λ value move, Score.min value (exact (push b move))) E moves) alpha b0.
Proof.
  intros Hchild. induction moves as [|m moves IH]; intros value E Hwin Hle Hex.
  - by apply base_min.
  - cbn [minimize foldl].
    set (r := child (push b m) alpha (Score.min b0 value)).
    set (v := exact (push b m)).
    assert (Hr : fail_soft r v alpha (Score.min b0 value)) by by apply Hchild.
    destruct (Score.leb (Score.min (Score.min b0 value) (Score.min value r)) alpha)
      eqn:Hcut.
    + eapply cutoff_min; [done..| |done].
      eapply Score_leb_trans; [apply foldl_min_le|apply Score_leb_min_r].
    + destruct (continue_min alpha b0 value r v E Hwin Hr Hle Hex Hcut) as (Heq & ? & ?).
      rewrite Heq. apply IH; try done.
      rewrite <- Heq. unfold Score.gtb. by rewrite Hcut.
Qed.

(** With a window that is not empty, the pruned search gives the exact value
    when it lies strictly inside the window, and otherwise a bound on the
    exact value that lies on the same side of the window. *)
Theorem _minimax_fail_soft depth b alpha beta is_maximizing :
  Score.gtb beta alpha = true →
  fail_soft (_minimax depth b alpha beta is_maximizing)
            (unpruned depth b is_maximizing) alpha beta.
Proof.
  revert b alpha beta is_maximizing.
  induction depth as [|depth IH]; intros b alpha beta is_maximizing Hwin.
  - repeat split; try done; intros; apply Score_leb_refl.
  - cbn [_minimax unpruned]. destruct (is_game_over b).
    { repeat split; try done; intros; apply Score_leb_refl. }
    destruct is_maximizing.
    + replace alpha with (Score.max alpha NegInf) at 1 by by destruct alpha.
      apply (maximize_sound (λ b' a' b'', _minimax depth b' a' b'' false)
               (λ b', unpruned depth b' false)); try done;
        try (intros; by apply IH); by destruct alpha.
    + replace beta with (Score.min beta PosInf) at 1 by by destruct beta.
      apply (minimize_sound (λ b' a' b'', _minimax depth b' a' b'' true)
               (λ b', unpruned depth b' true)); try done;
        try (intros; by apply IH); by destruct beta.
Qed.

(** X25. Called with the full window, [_minimax] returns the value of the search
    without cut-offs: pruning changes no result. *)
Theorem _minimax_is_unpruned depth b is_maximizing :
  _minimax depth b NegInf PosInf is_maximizing = unpruned depth b is_maximizing.
Proof. apply full_window. by apply _minimax_fail_soft. Qed.

End Pruning.

Section RootChoice.
Context `{RE : RulesEngine}.




End RootChoice.



(** ** The client's list of available games *)

Section LobbyTextFacts.
Import LobbyText.

Lemma split_cons sep s : ∃ part parts, split sep s = part :: parts.
Proof.
  induction s as [|c s (part & parts & IH)]; cbn [split]; [by eexists _, _|].
  case_decide; [by eexists _, _|]. rewrite IH. by eexists _, _.
Qed.

Lemma split_app_sep sep p q :
  sep ∉ p → split sep (p ++ sep :: q) = p :: split sep q.
Proof.
  induction p as [|c p IH]; intros Hp; cbn [app split].
  - by rewrite decide_True.
  - rewrite decide_False by set_solver. rewrite IH by set_solver. done.
Qed.

Lemma line_parts is_private game_id creator :
  hash ∉ game_id → space ∉ game_id →
  ∃ part parts,
    split hash (game_line is_private game_id creator) = part :: parts ∧
    ∃ rest parts', parts = (game_id ++ space :: rest) :: parts'.
Proof.
  intros Hh Hs. unfold game_line.
  set (tail := of_string " - Created by " ++ creator).
  assert (Hsplit : ∀ pre, hash ∉ pre →
            split hash (pre ++ hash :: game_id ++ tail)
              = pre :: split hash (game_id ++ tail)).
  { intros pre Hpre. by apply split_app_sep. }
  assert (Htail : ∃ rest parts', split hash (game_id ++ tail)
                                 = (game_id ++ space :: rest) :: parts').
  { subst tail. change (of_string " - Created by ")
      with (space :: of_string "- Created by ").
    cbn [app]. generalize (of_string "- Created by " ++ creator). intros l.
    clear Hsplit Hs. induction game_id as [|c gid IH]; cbn [app split].
    - destruct (split_cons hash l) as (part & parts & ->).
      rewrite decide_False by done. by eexists _, _.
    - rewrite decide_False by set_solver.
      destruct IH as (rest & parts' & ->); [set_solver|]. by eexists _, _. }
  destruct Htail as (rest & parts' & Htail).
  destruct is_private.
  - eexists _, _. split.
    + change ((lock ++ [space]) ++ of_string "Game #" ++ game_id ++ tail)
        with ((lock ++ [space] ++ of_string "Game ") ++ hash :: game_id ++ tail).
      apply Hsplit. apply (bool_decide_unpack _). by vm_compute.
    + by eexists _, _.
  - eexists _, _. split.
    + change ([] ++ of_string "Game #" ++ game_id ++ tail)
        with (of_string "Game " ++ hash :: game_id ++ tail).
      apply Hsplit. apply (bool_decide_unpack _). by vm_compute.
    + by eexists _, _.
Qed.

(** X21. The line made for a game gives back the game: when the game id holds
    no "#" and no blank (and the line does not read "No available games"),
    the selected line is read as the same id and the same privacy mark.  The
    request to join then carries that id; for a private game it is sent
    only with a password that is not empty, and for a public game it has no
    password key. *)
Theorem game_line_round_trip is_private game_id creator answer :
  hash ∉ game_id → space ∉ game_id →
  contains no_games (game_line is_private game_id creator) = false →
  selected_game (game_line is_private game_id creator) = Some (is_private, game_id) ∧
  join_request (game_line is_private game_id creator) answer =
    if is_private then
      match answer with
      | Some (c :: password) => Some (game_id, Some (c :: password))
      | _ => None
      end
    else Some (game_id, None).
Proof.
  intros Hh Hs Hno.
  assert (Hsel : selected_game (game_line is_private game_id creator)
                 = Some (is_private, game_id)).
  { unfold selected_game. rewrite Hno.
    destruct (line_parts is_private game_id creator Hh Hs)
      as (part & parts & Hsplit & rest & parts' & ->).
    rewrite Hsplit. rewrite split_app_sep by done.
    rewrite bool_decide_eq_true_2.
    2:{ unfold game_line. rewrite !elem_of_app. right. left. apply (bool_decide_unpack _). by vm_compute. }
    by destruct is_private. }
  split; [done|]. unfold join_request. rewrite Hsel. done.
Qed.

End LobbyTextFacts.

(** ** The lobby update *)

Section LobbyUpdate.
Context `{RE : RulesEngine}.

Lemma get_of_elem {V} k (v : V) (d : Dict.t V) :
  Dict.wf d → (k, v) ∈ d → Dict.get k d = Some v.
Proof.
  unfold Dict.wf. induction d as [|[k' v'] d IH]; intros Hwf Hin.
  - by apply elem_of_nil in Hin.
  - cbn [Dict.get]. apply NoDup_cons in Hwf as [Hk' Hwf].
    apply elem_of_cons in Hin as [[= -> ->]|Hin]; [by rewrite decide_True|].
    rewrite decide_False; [by apply IH|].
    intros ->. apply Hk'. apply list_elem_of_fmap. by exists (k', v).
Qed.

(** X14. In every state the server can be in, the lobby update lists every
    waiting game once: its entries carry the keys of [waiting_games], in the
    order of creation, and no key twice. *)
Theorem lobby_update_lists_waiting_games w :
  reachable w →
  ∃ players available_games,
    lobby_state (globals w) = MLobbyUpdate players available_games ∧
    players = map (λ ca, fst (snd ca)) (lobby (globals w)) ∧
    map (λ entry, fst (fst entry)) available_games
      = map fst (waiting_games (globals w)) ∧
    NoDup (map fst (waiting_games (globals w))).
Proof.
  intros Hreach.
  destruct (registry_invariant_reachable w Hreach) as (Hwf & Hwait & _).
  eexists _, _. split; [done|]. split; [done|]. split; [|done].
  assert (Hall : ∀ kv, kv ∈ waiting_games (globals w) →
                       is_Some (heap (globals w) !! snd kv)).
  { intros [k r] Hin. destruct (Hwait k r) as (game & Hg & _);
      [by apply get_of_elem|by exists game]. }
  clear Hwf Hwait. induction (waiting_games (globals w)) as [|[k r] d IH]; [done|].
  destruct (Hall (k, r)) as [game Hgame]; [set_solver|].
  simpl in Hgame. simpl. rewrite Hgame. simpl. f_equal. apply IH. intros kv Hkv. apply Hall. set_solver.
Qed.

End LobbyUpdate.

(** ** Concrete runs *)

Module Concrete.
Import Book Receiver Samples.

Local Ltac by_computation := apply (bool_decide_unpack _); vm_compute; exact I.

(** C1 on the code: in a game started between two players the turn colour
    and the engine's side to move agree; after the watchdog fired once the
    session's turn is Black while the board still has White to move. *)
Theorem timeout_leaves_board_side_behind :
  let before := globals (run started_trace) in
  let after := globals (run timeout_trace) in
  (∃ game, heap before !! 0%nat = Some game ∧
           turn game = WHITE ∧ board_turn (board game) = WHITE) ∧
  (∃ game, heap after !! 0%nat = Some game ∧
           turn game = BLACK ∧ board_turn (board game) = WHITE).
Proof. split; eexists; (split; [vm_compute; reflexivity|]); split; reflexivity. Qed.

(** What follows from it: Bob holds Black and it is his turn, but the reply
    e7e5 is refused as illegal, while the white move e2e4 sent by him is
    played on the board. *)
Lemma after_timeout_black_moves_for_white :
  let st := globals (run timeout_trace) in
  let env := at_time 62 "g2" in
  (handle_message bob bob_addr Player env (Decoded (move_msg "e7e5")) st).1
    = send bob (MError "Illegal move") st ∧
  board <$> heap (handle_message bob bob_addr Player env
                    (Decoded (move_msg "e2e4")) st).1 !! 0%nat
    = Some (["e2e4"], false).
Proof. split; vm_compute; reflexivity. Qed.

(** The move theorem at work: Alice opens the started game with e2e4. *)
Lemma move_accepted_iff_turn_and_legal_witness :
  let w := run started_trace in
  let m := move_msg "e2e4" in
  let env := at_time 5 "g2" in
  (reachable w ∧ games (globals w) !! alice = Some 0%nat ∧ m_type m = Str "move") ∧
  ∃ game,
    heap (globals w) !! 0%nat = Some game ∧
    (white_conn game = Some alice ∨ black_conn game = Some alice) ∧
    let res := handle_message alice alice_addr Player env (Decoded m) (globals w) in
    snd res = true ∧
    (∀ text mv, move_acceptable game alice m text mv →
       move_taken game text mv (now env) 0 (globals w) (fst res)) ∧
    ((¬ ∃ text mv, move_acceptable game alice m text mv) →
       move_refused alice (globals w) (fst res)).
Proof.
  assert (Hreach : reachable (run started_trace)) by by eexists.
  split; [repeat split; try exact Hreach; vm_compute; reflexivity|].
  apply (move_accepted_iff_turn_and_legal (run started_trace) alice alice_addr
           (at_time 5 "g2") (move_msg "e2e4") 0 Hreach);
    vm_compute; reflexivity.
Defined.

(** The two readings of the stream with a parser that returns the span. *)
Lemma rechunking_loses_whitespace_witness :
  (spans first_message_text = Loaded first_message_text ∧
   spans second_message_text = Loaded second_message_text ∧
   spans second_message_cut = Loaded second_message_cut) ∧
  delivered
    (receive_all spans [Data (chunk1 ++ chunk2)] start)
    = [first_message_text; second_message_text] ∧
  delivered
    (receive_all spans [Data chunk1; Data chunk2]
       start)
    = [first_message_text; second_message_cut].
Proof.
  split; [repeat split|].
  apply (rechunking_loses_whitespace spans first_message_text second_message_text
           second_message_cut); reflexivity.
Defined.



(** C5 refuted as stated: in the started game the scan at 61 seconds sends
    Alice four messages, not three: notice, [timeout_sync], board and turn. *)
Lemma timeout_broadcasts_four_messages :
  let st := globals (run started_trace) in
  let new := drop (List.length (sent st)) (sent (check_move_timers 61 61 st)) in
  received_by alice new =
    [ MInfo "White took too long. Turn passes to opponent.";
      MTimeoutSync "White" "w" "Black"; MBoard "w"; MTurn "Black" "active" 60 ] ∧
  ¬ ∃ m1 m2 m3, received_by alice new = [m1; m2; m3].
Proof.
  split; [vm_compute; reflexivity|].
  intros (m1 & m2 & m3 & H). vm_compute in H. discriminate.
Qed.

(** The timeout theorem at work: the started game, scanned after 61 seconds. *)
Lemma timeout_passes_turn_witness :
  let st := globals (run started_trace) in
  let game := session 0 st in
  (0%nat ∈ active_refs st ∧ heap st !! 0%nat = Some game ∧ timed_out 61 game) ∧
  (∃ game', heap (check_move_timers 61 61 st) !! 0%nat = Some game' ∧
            game' = set_turn_time (negb (turn game)) 61 game ∧
            board game' = board game ∧ turn game' = negb (turn game) ∧
            last_move_time game' = 61) ∧
  sent (check_game 61 61 0 st) =
    sent st ++ mjoin (map (to_all (recipients game)) (timeout_messages game)) ∧
  (∃ before after,
     sent (check_move_timers 61 61 st) =
       sent st ++ before
               ++ mjoin (map (to_all (recipients game)) (timeout_messages game))
               ++ after) ∧
  List.length (timeout_messages game) = 4%nat ∧
  (∀ ticks, lobby (scans ticks st) = lobby st ∧ games (scans ticks st) = games st ∧
            waiting_games (scans ticks st) = waiting_games st ∧
            spectators_of (scans ticks st) = spectators_of st).
Proof.
  assert (H1 : 0%nat ∈ active_refs (globals (run started_trace))) by by_computation.
  assert (H2 : timed_out 61 (session 0 (globals (run started_trace))))
    by by_computation.
  split; [repeat split; try done; by apply H2|].
  apply (timeout_passes_turn 61 61 0 (globals (run started_trace))
           (session 0 (globals (run started_trace))) H1); [reflexivity|exact H2].
Defined.


(** C7 refuted as stated: after Alice created a game the server is in a
    reachable state in which the waiting session g1 is also the value of
    Alice's entry in [games]. *)
Lemma waiting_session_is_in_games :
  let w := run waiting_trace in
  reachable w ∧
  Dict.get "g1" (waiting_games (globals w)) = Some 0%nat ∧
  games (globals w) !! alice = Some 0%nat ∧
  ¬ waiting_not_active (globals w).
Proof.
  split; [by eexists|]. split; [vm_compute; reflexivity|].
  split; [vm_compute; reflexivity|].
  intros H. apply (H "g1" 0%nat) with (c := alice); vm_compute; reflexivity.
Qed.

(** The registration theorem at work: Bob joins Alice's waiting game. *)
Lemma session_registration_witness :
  let st := globals (run (waiting_trace ++ [Connect bob bob_addr join_player])) in
  let game := session 0 st in
  let m := join_msg "g1" Absent in
  let env := at_time 3 "g2" in
  (Dict.wf (waiting_games st) ∧ m_game_id m = Str "g1" ∧
   Dict.get "g1" (waiting_games st) = Some 0%nat ∧ heap st !! 0%nat = Some game ∧
   white_conn game = Some alice ∧ games st !! alice = Some 0%nat ∧
   (is_private game = false ∨ provided_password m = password game)) ∧
  let st' := join_game bob bob_addr env m st in
  Dict.get "g1" (waiting_games st') = None ∧
  games st' !! alice = Some 0%nat ∧ games st' !! bob = Some 0%nat.
Proof.
  assert (Hwf : Dict.wf (waiting_games (globals
            (run (waiting_trace ++ [Connect bob bob_addr join_player])))))
    by by_computation.
  split; [repeat split; try exact Hwf; try (left; reflexivity); vm_compute; reflexivity|].
  destruct (session_registration bob bob_addr (at_time 3 "g2") (join_msg "g1" Absent)
              (globals (run (waiting_trace ++ [Connect bob bob_addr join_player]))))
    as (_ & Hjoin & _).
  apply (Hjoin "g1" 0%nat
           (session 0 (globals (run (waiting_trace ++ [Connect bob bob_addr join_player]))))
           alice); try exact Hwf; try (left; reflexivity); vm_compute; reflexivity.
Defined.

(** C8 on the code: Alice creates a game, quits while it waits (the game
    stays in [waiting_games]), joins her own game, quits again (which puts
    her in the lobby twice) and creates a second game; she is then in the
    lobby and a key of [games] at once. *)
Theorem quit_while_waiting_breaks_one_place :
  let w := run quit_rejoin_trace in
  reachable w ∧
  lobby (globals w) = [(alice, alice_addr)] ∧
  games (globals w) !! alice = Some 1%nat ∧
  ¬ in_one_place (globals w) alice.
Proof.
  split; [by eexists|]. split; [vm_compute; reflexivity|].
  split; [vm_compute; reflexivity|].
  intros (H & _). apply H. split; by_computation.
Qed.

(** C9 on the code: with Carol watching, the game that ends because Alice
    quits, or because of a mate, is removed from [games] and both players
    are in the lobby, but Carol's entry of the spectator bindings still
    refers to the session; only the disconnection path removes it.  A game
    quit while it waits stays in [waiting_games]. *)
Theorem ended_session_stays_registered :
  let quit := globals (run quit_watched_trace) in
  let mate := globals (run mate_watched_trace) in
  let gone := globals (run disconnect_watched_trace) in
  let left_waiting :=
    globals (run (waiting_trace ++ [Recv alice (at_time 1 "g1") quit_game_msg])) in
  (games quit = ∅ ∧ lobby quit = [(alice, alice_addr); (bob, bob_addr)] ∧
   spectators_of quit !! carol = Some 0%nat ∧ ¬ unregistered 0 quit) ∧
  (games mate = ∅ ∧ lobby mate = [(alice, alice_addr); (bob, bob_addr)] ∧
   spectators_of mate !! carol = Some 0%nat ∧ ¬ unregistered 0 mate) ∧
  (games gone = ∅ ∧ lobby gone = [(bob, bob_addr)] ∧ spectators_of gone = ∅) ∧
  (games left_waiting = ∅ ∧ lobby left_waiting = [(alice, alice_addr)] ∧
   Dict.get "g1" (waiting_games left_waiting) = Some 0%nat ∧
   ¬ unregistered 0 left_waiting).
Proof.
  repeat split; try (vm_compute; reflexivity).
  - intros (_ & _ & H). apply (H carol). vm_compute. reflexivity.
  - intros (_ & _ & H). apply (H carol). vm_compute. reflexivity.
  - intros (_ & H & _). apply (H "g1"). vm_compute. reflexivity.
Qed.

(** The search opponent at work on the position after 1. e4. *)
Lemma get_move_is_legal_witness :
  let rnd := {| capture_roll := true; check_roll := false; choice_index := 7 |} in
  legal_moves after_e4 ≠ [] ∧
  ∃ mv, get_move (ChessAI_init "Hard") after_e4 rnd = Some mv ∧
        mv ∈ legal_moves after_e4.
Proof.
  split; [by vm_compute|].
  apply (get_move_is_legal "Hard" after_e4); by vm_compute.
Defined.

End Concrete.

(** ** More concrete runs *)

Module MoreRuns.
Import Book Receiver Samples.

Local Ltac by_computation := apply (bool_decide_unpack _); vm_compute; exact I.


(** Alice's first message is a lobby request instead of a join. *)
Lemma first_message_must_be_join_witness :
  let w := initial_world in
  (handlers w !! alice = None ∧
   field_get (m_type (message "lobby_request")) ≠ Some "join") ∧
  step w (Connect alice alice_addr lobby_request) =
    {| globals := send alice (MError "First message must be a join request") (globals w);
       handlers := handlers w |}.
Proof.
  split; [split; [reflexivity|discriminate]|].
  apply (first_message_must_be_join initial_world alice alice_addr
           (message "lobby_request")); [reflexivity|discriminate].
Defined.

(** Carol asked for a game that does not exist and then chats. *)
Lemma placeless_connection_is_ignored_witness :
  let st := globals (run started_trace) in
  (Spectator = NoRole ∨
   (Spectator = Spectator ∧ spectators_of st !! carol = None) ∨
   (Spectator = Player ∧ in_lobby carol carol_addr st = false ∧
    games st !! carol = None ∧
    field_get (m_type (message "chat")) ≠ Some "lobby_request")) ∧
  handle_message carol carol_addr Spectator (at_time 9 "g9")
    (Decoded (message "chat")) st = (st, true).
Proof.
  assert (H : Spectator = NoRole ∨
   (Spectator = Spectator ∧ spectators_of (globals (run started_trace)) !! carol = None) ∨
   (Spectator = Player ∧ in_lobby carol carol_addr (globals (run started_trace)) = false ∧
    games (globals (run started_trace)) !! carol = None ∧
    field_get (m_type (message "chat")) ≠ Some "lobby_request")).
  { right. left. split; [reflexivity|]. vm_compute. reflexivity. }
  split; [exact H|].
  exact (placeless_connection_is_ignored carol carol_addr Spectator (at_time 9 "g9")
           (message "chat") (globals (run started_trace)) H).
Defined.


Import MoreSamples.

(** Carol asks to watch the running game g1. *)
Lemma spectator_is_bound_and_synced_witness :
  let st := globals (run started_trace) in
  let res := first_message carol carol_addr (Decoded (spectate_msg "g1")) st in
  (0%nat ∈ active_refs st ∧ heap st !! 0%nat = Some (session 0 st) ∧
   game_id (session 0 st) = "g1") ∧
  ∃ r game,
    heap st !! r = Some game ∧ game_id game = "g1" ∧
    spectators_of res.1.1 = <[carol := r]> (spectators_of st).
Proof.
  assert (H1 : 0%nat ∈ active_refs (globals (run started_trace))) by by_computation.
  assert (H2 : heap (globals (run started_trace)) !! 0%nat
               = Some (session 0 (globals (run started_trace))))
    by (vm_compute; reflexivity).
  assert (H3 : game_id (session 0 (globals (run started_trace))) = "g1")
    by (vm_compute; reflexivity).
  split; [by repeat split|].
  destruct (spectator_is_bound_and_synced carol carol_addr (spectate_msg "g1") "g1"
              (globals (run started_trace)) 0%nat _ eq_refl eq_refl eq_refl H1 H2 H3)
    as (r & game & _ & Hr & Hid & _ & _ & Hbound & _).
  exists r, game. by repeat split.
Defined.

(** Carol asks to watch a game that does not exist. *)
Lemma spectator_of_unknown_game_witness :
  let st := globals (run started_trace) in
  (∀ r game, r ∈ active_refs st → heap st !! r = Some game →
             Some (game_id game) ≠ field_get (m_game_id (spectate_msg "g7"))) ∧
  (first_message carol carol_addr (Decoded (spectate_msg "g7")) st).2 = true.
Proof.
  assert (H : ∀ r game, r ∈ active_refs (globals (run started_trace)) →
                heap (globals (run started_trace)) !! r = Some game →
                Some (game_id game) ≠ field_get (m_game_id (spectate_msg "g7"))).
  { intros r game Hr Hg. apply list_elem_of_In in Hr. vm_compute in Hr.
    destruct Hr as [<-|[]]; vm_compute in Hg; injection Hg as <-; discriminate. }
  split; [exact H|].
  destruct (spectator_of_unknown_game carol carol_addr (spectate_msg "g7")
              (globals (run started_trace)) eq_refl eq_refl H) as (ids & _ & ->).
  reflexivity.
Defined.

(** Bob joins Alice's private game with the right password. *)
Lemma private_join_password_rule_witness :
  let st := globals (run private_trace) in
  let m := join_msg "g1" (Str "secret") in
  (Dict.get "g1" (waiting_games st) = Some 0%nat ∧
   heap st !! 0%nat = Some (session 0 st) ∧
   is_private (session 0 st) = true ∧ password (session 0 st) = Some "secret") ∧
  games (join_game bob bob_addr (at_time 3 "g2") m st) !! bob = Some 0%nat.
Proof.
  split; [repeat split; vm_compute; reflexivity|].
  destruct (private_join_password_rule bob bob_addr (at_time 3 "g2")
              (join_msg "g1" (Str "secret")) "g1" 0%nat (globals (run private_trace))
              (session 0 (globals (run private_trace))) "secret")
    as [Hpass _]; [vm_compute; reflexivity..|].
  apply Hpass. by left.
Defined.

(** Bob joins Alice's waiting game; Carol then asks for the same game. *)
Lemma game_is_joined_once_witness :
  let st := globals (run waiting_trace) in
  let st' := join_game bob bob_addr (at_time 1 "g2") (join_msg "g1" Absent) st in
  (Dict.wf (waiting_games st) ∧ Dict.get "g1" (waiting_games st) = Some 0%nat ∧
   heap st !! 0%nat = Some (session 0 st) ∧ is_private (session 0 st) = false) ∧
  join_game carol carol_addr (at_time 2 "g3") (join_msg "g1" Absent) st' =
    send carol (MError "Game #g1 not found or already full.") st'.
Proof.
  assert (Hwf : Dict.wf (waiting_games (globals (run waiting_trace))))
    by by_computation.
  split; [split; [exact Hwf|repeat split; vm_compute; reflexivity]|].
  apply (game_is_joined_once bob bob_addr (at_time 1 "g2") (join_msg "g1" Absent)
           "g1" 0%nat (globals (run waiting_trace))
           (session 0 (globals (run waiting_trace)))
           carol carol_addr (at_time 2 "g3") (join_msg "g1" Absent) Hwf);
    try (vm_compute; reflexivity).
  left. vm_compute. reflexivity.
Defined.

(** Alice says hi in the running game. *)
Lemma chat_is_relayed_witness :
  let st := globals (run started_trace) in
  (heap st !! 0%nat = Some (session 0 st) ∧ games st !! alice = Some 0%nat) ∧
  handle_message alice alice_addr Player (at_time 5 "g2") (Decoded (chat_msg "hi")) st
    = (log (to_all (recipients (session 0 st)) (MChat "White: hi")) st, true).
Proof.
  split; [split; vm_compute; reflexivity|].
  destruct (chat_is_relayed alice alice_addr (at_time 5 "g2") (chat_msg "hi")
              (globals (run started_trace)) 0%nat
              (session 0 (globals (run started_trace))) eq_refl)
    as [Hplayer _]; [vm_compute; reflexivity|].
  apply Hplayer. vm_compute. reflexivity.
Defined.

(** Alice opens with e2e4. *)
Lemma ordinary_move_update_witness :
  let st := globals (run started_trace) in
  let st' := handle_move alice (at_time 5 "g2") (move_msg "e2e4") 0 st in
  (heap st !! 0%nat = Some (session 0 st) ∧
   move_acceptable (session 0 st) alice (move_msg "e2e4") "e2e4" "e2e4" ∧
   terminal (push (board (session 0 st)) "e2e4") = false) ∧
  lobby st' = lobby st ∧ games st' = games st.
Proof.
  assert (Hacc : move_acceptable (session 0 (globals (run started_trace))) alice
                   (move_msg "e2e4") "e2e4" "e2e4").
  { repeat split; try (vm_compute; reflexivity). by_computation. }
  split; [split; [vm_compute; reflexivity|split; [exact Hacc|vm_compute; reflexivity]]|].
  destruct (ordinary_move_update alice (at_time 5 "g2") (move_msg "e2e4") 0%nat
              (globals (run started_trace)) (session 0 (globals (run started_trace)))
              "e2e4" "e2e4")
    as (Hl & Hg & _); [try exact Hacc; vm_compute; reflexivity..|].
  by split.
Defined.



(** Alice's connection breaks while Carol watches. *)
Lemma disconnect_ends_game_witness :
  let st := globals (run watched_trace) in
  let st' := disconnect alice alice_addr Player st in
  (in_lobby alice alice_addr st = false ∧ game_to_remove alice st = None ∧
   games st !! alice = Some 0%nat ∧ heap st !! 0%nat = Some (session 0 st) ∧
   opponent (session 0 st) alice = Some bob ∧
   opponent_address (session 0 st) (Some bob) = Some bob_addr) ∧
  lobby st' = lobby st ++ [(bob, bob_addr)] ∧
  games st' = delete bob (delete alice (games st)).
Proof.
  split; [repeat split; vm_compute; reflexivity|].
  destruct (disconnect_ends_game alice alice_addr (globals (run watched_trace)) 0%nat
              (session 0 (globals (run watched_trace))) bob bob_addr)
    as (Hl & Hg & _); [vm_compute; reflexivity..|].
  by split.
Defined.

(** Alice's connection breaks while her game waits. *)
Lemma disconnect_clears_player_witness :
  let w := run waiting_trace in
  reachable w ∧
  games (disconnect alice alice_addr Player (globals w)) !! alice = None.
Proof.
  assert (Hreach : reachable (run waiting_trace)) by by eexists.
  split; [exact Hreach|].
  destruct (disconnect_clears_player (run waiting_trace) alice alice_addr Hreach)
    as [Hg _].
  exact Hg.
Defined.

(** A scan 30 seconds after the start of the game. *)
Lemma watchdog_skips_witness :
  let st := globals (run started_trace) in
  heap st !! 0%nat = Some (session 0 st) ∧ check_game 30 61 0 st = st.
Proof.
  assert (H : heap (globals (run started_trace)) !! 0%nat
              = Some (session 0 (globals (run started_trace))))
    by (vm_compute; reflexivity).
  split; [exact H|].
  destruct (watchdog_skips 30 61 0%nat (globals (run started_trace))
              (session 0 (globals (run started_trace))) H) as [Hskip _].
  apply Hskip. left. by vm_compute.
Defined.

(** Alice's game waits and is listed. *)
Lemma lobby_update_lists_waiting_games_witness :
  let w := run waiting_trace in
  reachable w ∧
  ∃ players available_games,
    lobby_state (globals w) = MLobbyUpdate players available_games ∧
    map (λ entry, fst (fst entry)) available_games = map fst (waiting_games (globals w)).
Proof.
  assert (Hreach : reachable (run waiting_trace)) by by eexists.
  split; [exact Hreach|].
  destruct (lobby_update_lists_waiting_games (run waiting_trace) Hreach)
    as (players & available & Hst & _ & Hids & _).
  by exists players, available.
Defined.

(** ** The client *)

Lemma quoted_braces_are_skipped_witness :
  string_body tricky_body ∧
  find_msg_end ([lbrace; dquote] ++ tricky_body ++ [dquote; rbrace]) = 8%nat.
Proof.
  assert (H : string_body tricky_body).
  { apply body_plain; [discriminate..|]. apply body_escape.
    apply body_plain; [discriminate..|]. apply body_nil. }
  split; [exact H|]. exact (quoted_braces_are_skipped tricky_body H).
Defined.

Lemma two_messages_one_read_witness :
  (find_msg_end first_message_text = List.length first_message_text ∧
   find_msg_end second_message_text = List.length second_message_text ∧
   strip second_message_text = second_message_text) ∧
  receive spans (Data (first_message_text ++ second_message_text)) start =
    {| buffer := []; connected := true; running := true;
       delivered := [first_message_text; second_message_text] |}.
Proof.
  split; [repeat split; vm_compute; reflexivity|].
  apply (two_messages_one_read spans first_message_text second_message_text
           first_message_text second_message_text start);
    try reflexivity; try discriminate; vm_compute; reflexivity.
Defined.

Lemma unfinished_text_accumulates_witness :
  (Forall (λ chunk, chunk ≠ []) unfinished ∧
   find_msg_end (mjoin unfinished) = 0%nat) ∧
  receive_all spans (map Data unfinished) start =
    {| buffer := mjoin unfinished; connected := true;
       running := true; delivered := [] |}.
Proof.
  assert (H : Forall (λ chunk : list ascii, chunk ≠ []) unfinished).
  { repeat constructor; discriminate. }
  split; [split; [exact H|vm_compute; reflexivity]|].
  apply (unfinished_text_accumulates spans unfinished start eq_refl eq_refl H).
  vm_compute. reflexivity.
Defined.

Lemma decode_error_bounds_buffer_witness :
  (find_msg_end first_message_text ≠ 0%nat ∧
   rejects (take (find_msg_end first_message_text) first_message_text)
     = JSONDecodeError) ∧
  (List.length (buffer (receive rejects (Data first_message_text) start)) <= 1000)%nat.
Proof.
  split; [split; [by vm_compute|reflexivity]|].
  apply (decode_error_bounds_buffer rejects start first_message_text eq_refl eq_refl);
    [discriminate|by vm_compute|reflexivity].
Defined.

Lemma receiver_stops_witness :
  receive_all spans [Data first_message_text] (receive spans (Data []) start) =
    {| buffer := []; connected := true; running := false; delivered := [] |}.
Proof.
  destruct (receiver_stops spans start [Data first_message_text] eq_refl eq_refl)
    as [Heof _].
  exact Heof.
Defined.

Lemma one_message_in_pieces_witness :
  (Forall (λ chunk, chunk ≠ []) pieces ∧
   mjoin pieces = first_message_text ∧
   find_msg_end first_message_text = List.length first_message_text) ∧
  receive_all spans (map Data pieces) start =
    {| buffer := []; connected := true; running := true;
       delivered := [first_message_text] |}.
Proof.
  assert (H : Forall (λ chunk : list ascii, chunk ≠ []) pieces).
  { repeat constructor; discriminate. }
  split; [split; [exact H|split; vm_compute; reflexivity]|].
  apply (one_message_in_pieces spans pieces start first_message_text
           first_message_text eq_refl eq_refl H);
    try discriminate; vm_compute; reflexivity.
Defined.

Lemma game_line_round_trip_witness :
  let game_id := LobbyText.of_string "3f9a1c2e" in
  let creator := LobbyText.of_string "127.0.0.1" in
  let line := LobbyText.game_line true game_id creator in
  ((LobbyText.hash ∉ game_id) ∧ (LobbyText.space ∉ game_id) ∧
   LobbyText.contains LobbyText.no_games line = false) ∧
  LobbyText.selected_game line = Some (true, game_id) ∧
  LobbyText.join_request line (Some (LobbyText.of_string "secret"))
    = Some (game_id, Some (LobbyText.of_string "secret")).
Proof.
  assert (H1 : LobbyText.hash ∉ LobbyText.of_string "3f9a1c2e") by by_computation.
  assert (H2 : LobbyText.space ∉ LobbyText.of_string "3f9a1c2e") by by_computation.
  split; [split; [exact H1|split; [exact H2|vm_compute; reflexivity]]|].
  apply (game_line_round_trip true (LobbyText.of_string "3f9a1c2e")
           (LobbyText.of_string "127.0.0.1") (Some (LobbyText.of_string "secret"))
           H1 H2).
  vm_compute. reflexivity.
Defined.

(** ** The search opponent *)




(** A capture on the skirmish board; a check one move before the fool's mate. *)
Lemma random_move_preferences_witness :
  let lucky := {| capture_roll := true; check_roll := false; choice_index := 3 |} in
  let bold := {| capture_roll := false; check_roll := true; choice_index := 3 |} in
  let b : Board (RulesEngine := Book.engine) := (["f2f3"; "e7e5"; "g2g4"], false) in
  (∃ mv, _get_random_move (RE := Skirmish.engine) true lucky = Some mv ∧
         mv ∈ Skirmish.skirmish_moves true ∧ Skirmish.takes mv = true) ∧
  (∃ mv, _get_random_move b bold = Some mv ∧ mv ∈ legal_moves b ∧
         is_capture b mv = false ∧ is_check (push b mv) = true).
Proof.
  split.
  - apply (proj1 (random_move_preferences (RE := Skirmish.engine) true
                    {| capture_roll := true; check_roll := false; choice_index := 3 |}));
      [reflexivity|].
    exists "e4d5". split; [by_computation|reflexivity].
  - apply (proj2 (random_move_preferences (RE := Book.engine)
                    (["f2f3"; "e7e5"; "g2g4"], false)
                    {| capture_roll := false; check_roll := true; choice_index := 3 |}));
      [reflexivity|by left|].
    exists "d8h4". split; [by_computation|split; vm_compute; reflexivity].
Defined.

End MoreRuns.
